(** * Taxentia-AI ingestion core: identifiers, chunking, batching, embedding

    A shallow embedding of
      - [ingestion/utils/hashing.py]
      - [ingestion/processors/chunker.py]
      - [ingestion/processors/embeddings.py]
      - [ingestion/models/chunks.py]
    followed by the properties of the ingestion specification.

    Python values are modelled as follows.  An [int] is a [Z]; a [str] is the
    list of its Unicode code points (what [for char in s] and [ord] see); a
    raised exception is the [Raise] case of [result]. *)

From Stdlib Require Import String Ascii DecimalString DecimalZ PrimFloat.
From Stdlib Require Import ZArith Lia Bool List Sorted.
Import ListNotations.
Local Open Scope Z_scope.

(* ================================================================= *)
(** * Part I: the embedding *)
(* ================================================================= *)

(** ** Python strings *)

Module Py.

Definition str := list Z.

(** An ASCII literal of the source, as a [str]. *)
Definition lit (s : string) : str :=
  map (fun a => Z.of_nat (nat_of_ascii a)) (list_ascii_of_string s).

Definition len {A} (l : list A) : Z := Z.of_nat (List.length l).

(** [bool(s)]: a string (or list) is truthy when it is not empty. *)
Definition truthy {A} (l : list A) : bool :=
  match l with [] => false | _ :: _ => true end.

(** Index normalisation of a slice bound: negative bounds count from the
    end, and everything is clamped to [0 .. len]. *)
Definition clamp (n : Z) (i : Z) : nat :=
  Z.to_nat (if i <? 0 then Z.max 0 (n + i) else Z.min i n).

(** [s[i:]] *)
Definition slice_from {A} (i : Z) (s : list A) : list A :=
  skipn (clamp (len s) i) s.

(** [s[:j]] *)
Definition slice_to {A} (j : Z) (s : list A) : list A :=
  firstn (clamp (len s) j) s.

(** [s[i:j]] *)
Definition slice {A} (i j : Z) (s : list A) : list A :=
  let n := len s in
  firstn (clamp n j - clamp n i)%nat (skipn (clamp n i) s).

(** [str.isspace] on one code point: the Unicode white space that
    [str.strip()] removes. *)
Definition isspace (c : Z) : bool :=
  ((9 <=? c) && (c <=? 13)) || ((28 <=? c) && (c <=? 32))
  || (c =? 133) || (c =? 160) || (c =? 5760)
  || ((8192 <=? c) && (c <=? 8202))
  || (c =? 8232) || (c =? 8233) || (c =? 8239) || (c =? 8287)
  || (c =? 12288).

Fixpoint lstrip (s : str) : str :=
  match s with
  | c :: s' => if isspace c then lstrip s' else s
  | [] => []
  end.

Definition rstrip (s : str) : str := rev (lstrip (rev s)).

(** [s.strip()] *)
Definition strip (s : str) : str := rstrip (lstrip s).

(** [s.replace(old, new)] for one-character [old] and [new]. *)
Definition replace1 (old new : Z) (s : str) : str :=
  map (fun c => if c =? old then new else c) s.

(** [s.rfind(c)] for a one-character needle: the highest index holding [c],
    or [-1]. *)
Fixpoint rfind_from (c : Z) (s : str) (i : Z) (found : Z) : Z :=
  match s with
  | [] => found
  | x :: s' => rfind_from c s' (i + 1) (if x =? c then i else found)
  end.

Definition rfind (c : Z) (s : str) : Z := rfind_from c s 0 (-1).

(** [str(n)] / [f"{n}"] for an int. *)
Definition str_of_int (n : Z) : str :=
  lit (NilEmpty.string_of_int (Z.to_int n)).

Definition sum (l : list Z) : Z := fold_left Z.add l 0.

End Py.

Import Py.

(** ** Exceptions *)

(** The exception classes that the modelled code raises or lets through.
    [RateLimitError] is a subclass of [APIError] in the provider's client
    library; [APIError] here stands for every other member of that class and
    [OtherError] for anything outside it. *)
Inductive exn : Type :=
| IndexError
| ValueError
| RateLimitError
| APIError
| OtherError.

Inductive result (A : Type) : Type :=
| Ok (a : A)
| Raise (e : exn).
Arguments Ok {A} a.
Arguments Raise {A} e.

(** ** [ingestion/utils/hashing.py] *)

Module Hashing.

(** One iteration of the loop of [string_to_numeric_id]. *)
Definition hash_step (hash_val : Z) (char : Z) : Z :=
  Z.land ((Z.shiftl hash_val 5 - hash_val) + char) 0xFFFFFFFF.

Definition string_to_numeric_id (s : str) : Z :=
  Z.abs (fold_left hash_step s 0).

Definition sanitize (citation : str) : str :=
  replace1 46 45 (replace1 47 45 (replace1 32 45 citation)).

Definition generate_chunk_id (source_type citation : str) (chunk_index : Z)
  : str :=
  source_type ++ lit "-" ++ sanitize citation ++ lit "-chunk-"
    ++ str_of_int chunk_index.

Definition generate_numeric_chunk_id
    (source_type citation : str) (chunk_index : Z) : Z :=
  let string_id := generate_chunk_id source_type citation chunk_index in
  string_to_numeric_id string_id.

(** The algorithm in the words of the specification (and of the TypeScript
    original quoted in the module's docstring): a 32-bit accumulator, read
    as a signed two's-complement integer at the end. *)
Definition wrap32 (x : Z) : Z := x mod 2 ^ 32.

Definition to_signed32 (u : Z) : Z :=
  if u <? 2 ^ 31 then u else u - 2 ^ 32.

Definition spec_step (acc c : Z) : Z := wrap32 (acc * 31 + c).

Definition numeric_id_spec (units : list Z) : Z :=
  Z.abs (to_signed32 (fold_left spec_step units 0)).

End Hashing.

(** ** [ingestion/models/chunks.py] *)

Module Models.

(** The [metadata] dict a caller hands to the chunker.  It is taken
    well-formed for the keyword expansion into [ChunkMetadata]: it supplies
    [source_type] and [citation], may supply the optional fields, and does
    not itself supply [chunk_index] or [total_chunks]. *)
Record Metadata : Type := {
  md_source_type : str;
  md_citation : str;
  md_title : option str;
  md_section : option str;
  md_url : option str;
  md_version_date : option str;
  md_extra_fields : list (str * str)
}.

Record ChunkMetadata : Type := {
  source_type : str;
  citation : str;
  chunk_index : Z;
  total_chunks : Z;
  title : option str;
  section : option str;
  url : option str;
  version_date : option str;
  extra_fields : list (str * str)
}.

Record Chunk : Type := {
  text : str;
  metadata : ChunkMetadata;
  string_id : str
}.

Record EmbeddedChunk : Type := {
  chunk : Chunk;
  embedding : list float;
  numeric_id : Z;
  tokens : Z
}.

Record IngestionBatch : Type := {
  embedded_chunks : list EmbeddedChunk;
  total_tokens : Z;
  batch_size : Z
}.

(** [ChunkMetadata] built from the dict plus [chunk_index=i] and
    [total_chunks=n]. *)
Definition make_metadata (md : Metadata) (i n : Z) : ChunkMetadata :=
  {| source_type := md_source_type md;
     citation := md_citation md;
     chunk_index := i;
     total_chunks := n;
     title := md_title md;
     section := md_section md;
     url := md_url md;
     version_date := md_version_date md;
     extra_fields := md_extra_fields md |}.

End Models.

(** ** [ingestion/processors/chunker.py] *)

Module Chunker.
Import Models.

Record TextChunker : Type := {
  max_chunk_size : Z;
  overlap_size : Z
}.

(** The module-level name [sent_tokenize]: [None] when [nltk] cannot be
    imported; otherwise NLTK's tokenizer, an external function whose call
    either returns the sentences or raises ([None]). *)
Definition tokenizer : Type := option (str -> option (list str)).

Definition SPACE : str := [32].
Definition PARA_SEP : str := [10; 10].

(** [re.sub(r"\n\n+", "\n\n", text)]; [run] counts the newlines of the
    current run that were kept. *)
Fixpoint collapse_newlines (run : nat) (s : str) : str :=
  match s with
  | [] => []
  | c :: s' =>
      if c =? 10 then
        if (2 <=? run)%nat then collapse_newlines run s'
        else c :: collapse_newlines (S run) s'
      else c :: collapse_newlines 0 s'
  end.

(** [re.sub(r" +", " ", text)] *)
Fixpoint collapse_spaces (s : str) : str :=
  match s with
  | [] => []
  | c :: s' =>
      if (c =? 32) && match s' with c' :: _ => c' =? 32 | [] => false end
      then collapse_spaces s'
      else c :: collapse_spaces s'
  end.

Definition _clean_text (text : str) : str :=
  let text := collapse_newlines 0 text in
  let text := collapse_spaces text in
  strip text.

(** [text.split("\n\n")]; [acc] is the part being read, reversed. *)
Fixpoint split_paragraphs (acc : str) (s : str) : list str :=
  match s with
  | [] => [rev acc]
  | c :: s' =>
      match s' with
      | c' :: s'' =>
          if (c =? 10) && (c' =? 10)
          then rev acc :: split_paragraphs [] s''
          else split_paragraphs (c :: acc) s'
      | [] => [rev (c :: acc)]
      end
  end.

Definition _get_overlap_at_word_boundary (self : TextChunker) (text : str)
  : str :=
  if len text <=? overlap_size self then text
  else
    let overlap := slice_from (- overlap_size self) text in
    let last_space := rfind 32 overlap in
    if last_space >? 0 then slice_to last_space overlap else overlap.

(** The grouping loop of the NLTK branch of [_split_by_sentences]. *)
Fixpoint group_sentences (self : TextChunker) (sentences : list str)
    (chunks : list str) (current : str) : list str :=
  match sentences with
  | [] => if truthy current then chunks ++ [current] else chunks
  | sent :: rest =>
      if len current + len sent <=? max_chunk_size self then
        group_sentences self rest chunks
          (if truthy current then current ++ SPACE ++ sent else sent)
      else
        group_sentences self rest
          (if truthy current then chunks ++ [current] else chunks) sent
  end.

Definition is_terminator (c : Z) : bool :=
  (c =? 46) || (c =? 33) || (c =? 63).

(** [re.findall(r"[^.!?]*[.!?]+", text)]: each match is a maximal run of
    non-terminators followed by a maximal run of terminators; a tail
    without terminator matches nothing.  [acc] is the match being read,
    reversed, and [in_term] tells whether it already ends in a terminator. *)
Fixpoint findall_sentences (acc : str) (in_term : bool) (s : str)
  : list str :=
  match s with
  | [] => if in_term then [rev acc] else []
  | c :: s' =>
      if is_terminator c then findall_sentences (c :: acc) true s'
      else if in_term then rev acc :: findall_sentences [c] false s'
      else findall_sentences (c :: acc) false s'
  end.

(** The grouping loop of the regex branch of [_split_by_sentences]. *)
Fixpoint group_matches (self : TextChunker) (matches : list str)
    (chunks : list str) (current : str) : list str :=
  match matches with
  | [] => if truthy current then chunks ++ [strip current] else chunks
  | m :: rest =>
      if len current + len m <=? max_chunk_size self then
        group_matches self rest chunks (current ++ m)
      else
        group_matches self rest
          (if truthy current then chunks ++ [strip current] else chunks) m
  end.

Definition split_by_regex (self : TextChunker) (text : str) : list str :=
  let matches := findall_sentences [] false text in
  if negb (truthy matches) then [text]
  else
    let chunks := group_matches self matches [] [] in
    if truthy chunks then chunks else [text].

Definition _split_by_sentences (sent_tokenize : tokenizer)
    (self : TextChunker) (text : str) : list str :=
  match sent_tokenize with
  | Some tokenize =>
      match tokenize text with
      | Some sentences => group_sentences self sentences [] []
      | None => split_by_regex self text
      end
  | None => split_by_regex self text
  end.

(** The body of [for para_chunk in para_chunks[1:-1]]; the loop state is
    [(chunks, current_chunk, overlap_text)]. *)
Definition middle_step (self : TextChunker)
    (st : list str * str * str) (para_chunk : str) : list str * str * str :=
  let '(chunks, current_chunk, overlap_text) := st in
  let overlap := overlap_text ++ para_chunk in
  if len overlap >? max_chunk_size self then
    (chunks ++ [overlap], current_chunk,
     _get_overlap_at_word_boundary self
       (slice_from (- overlap_size self) para_chunk))
  else (chunks, overlap, overlap_text).

(** The body of [for paragraph in paragraphs]; the loop state is
    [(chunks, current_chunk)].  [para_chunks[0]] raises [IndexError] on an
    empty list. *)
Definition paragraph_step (sent_tokenize : tokenizer) (self : TextChunker)
    (st : list str * str) (paragraph : str) : result (list str * str) :=
  let '(chunks, current_chunk) := st in
  let paragraph := strip paragraph in
  if negb (truthy paragraph) then Ok st
  else if len current_chunk + len paragraph + 2 <=? max_chunk_size self then
    let current_chunk :=
      if truthy current_chunk then current_chunk ++ PARA_SEP
      else current_chunk in
    Ok (chunks, current_chunk ++ paragraph)
  else if truthy current_chunk then
    let chunks := chunks ++ [current_chunk] in
    let overlap_text := slice_from (- overlap_size self) current_chunk in
    let overlap_text := _get_overlap_at_word_boundary self overlap_text in
    if len paragraph >? max_chunk_size self then
      let para_chunks := _split_by_sentences sent_tokenize self paragraph in
      match para_chunks with
      | [] => Raise IndexError
      | first :: _ =>
          let current_chunk := overlap_text ++ first in
          let chunks := chunks ++ [current_chunk] in
          let '(chunks, current_chunk, overlap_text) :=
            fold_left (middle_step self) (slice 1 (-1) para_chunks)
              (chunks, current_chunk, overlap_text) in
          let current_chunk :=
            if len para_chunks >? 1
            then overlap_text ++ last para_chunks []
            else last para_chunks [] in
          Ok (chunks, current_chunk)
      end
    else Ok (chunks, overlap_text ++ paragraph)
  else Ok st.

Fixpoint paragraph_loop (sent_tokenize : tokenizer) (self : TextChunker)
    (paragraphs : list str) (st : list str * str)
  : result (list str * str) :=
  match paragraphs with
  | [] => Ok st
  | paragraph :: rest =>
      match paragraph_step sent_tokenize self st paragraph with
      | Ok st' => paragraph_loop sent_tokenize self rest st'
      | Raise e => Raise e
      end
  end.

Definition make_chunk (md : Metadata) (chunk_text : str) (idx total : Z)
  : Chunk :=
  {| text := chunk_text;
     metadata := make_metadata md idx total;
     string_id :=
       Hashing.generate_chunk_id (md_source_type md) (md_citation md) idx |}.

(** [for idx, chunk_text in enumerate(chunks)], from index [idx] on. *)
Fixpoint chunk_objects (md : Metadata) (total_chunks : Z) (idx : Z)
    (chunks : list str) : list Chunk :=
  match chunks with
  | [] => []
  | chunk_text :: rest =>
      let chunk_text := strip chunk_text in
      if negb (truthy chunk_text)
      then chunk_objects md total_chunks (idx + 1) rest
      else make_chunk md chunk_text idx total_chunks
           :: chunk_objects md total_chunks (idx + 1) rest
  end.

(** The text chunks of [_split_into_chunks], before they become [Chunk]
    objects. *)
Definition raw_chunks (sent_tokenize : tokenizer) (self : TextChunker)
    (text : str) : result (list str) :=
  let paragraphs := split_paragraphs [] text in
  match paragraph_loop sent_tokenize self paragraphs ([], []) with
  | Raise e => Raise e
  | Ok (chunks, current_chunk) =>
      Ok (if truthy current_chunk then chunks ++ [current_chunk]
          else chunks)
  end.

Definition _split_into_chunks (sent_tokenize : tokenizer)
    (self : TextChunker) (text : str) (md : Metadata)
  : result (list Chunk) :=
  match raw_chunks sent_tokenize self text with
  | Raise e => Raise e
  | Ok chunks => Ok (chunk_objects md (len chunks) 0 chunks)
  end.

Definition chunk_document (sent_tokenize : tokenizer) (self : TextChunker)
    (text : str) (md : Metadata) : result (list Chunk) :=
  let text := _clean_text text in
  if negb (truthy text) then Ok []
  else if len text <=? max_chunk_size self then
    Ok [make_chunk md text 0 1]
  else _split_into_chunks sent_tokenize self text md.

(** A stand-in for NLTK's [sent_tokenize] on plain prose: a sentence ends
    at a run of terminators that is followed by white space, and the white
    space between sentences is dropped. *)
Fixpoint plain_sentences (acc : str) (in_term : bool) (s : str)
  : list str :=
  match s with
  | [] => if truthy acc then [rev acc] else []
  | c :: s' =>
      if is_terminator c then plain_sentences (c :: acc) true s'
      else if in_term && isspace c then rev acc :: plain_sentences [] false s'
      else if isspace c && negb (truthy acc) then plain_sentences acc false s'
      else plain_sentences (c :: acc) false s'
  end.

Definition plain_tokenizer : tokenizer :=
  Some (fun text => Some (plain_sentences [] false text)).

(** One element of the list given to [chunk_documents_batch]: a dict with
    the keys ['text'] and ['metadata'], taken well-formed. *)
Record Document : Type := {
  doc_text : str;
  doc_metadata : Metadata
}.

(** [for doc in documents] of [chunk_documents_batch]; an exception of
    [chunk_document] ends the loop. *)
Fixpoint documents_loop (sent_tokenize : tokenizer) (self : TextChunker)
    (documents : list Document) (all_chunks : list Chunk)
  : result (list Chunk) :=
  match documents with
  | [] => Ok all_chunks
  | doc :: rest =>
      match chunk_document sent_tokenize self (doc_text doc)
              (doc_metadata doc) with
      | Raise e => Raise e
      | Ok chunks =>
          documents_loop sent_tokenize self rest (all_chunks ++ chunks)
      end
  end.

Definition chunk_documents_batch (sent_tokenize : tokenizer)
    (self : TextChunker) (documents : list Document)
  : result (list Chunk) :=
  documents_loop sent_tokenize self documents [].

End Chunker.

(** ** [ingestion/processors/embeddings.py] *)

Module Embeddings.
Import Models.

(** *** The outside world

    The embedding provider is an external service.  A run talks to it
    sequentially, so the provider is a function of the number of requests
    it has already served, the model name and the texts of the request.
    The [trace] records, in order, every request with its outcome and every
    [asyncio.sleep] (in milliseconds). *)

Inductive response : Type :=
| Data (vectors : list (list float))
| Fails (e : exn).

Definition provider : Type := nat -> str -> list str -> response.

Inductive event : Type :=
| Request (model : str) (texts : list str) (r : response)
| Sleep (ms : Z).

Record world : Type := {
  requests : nat;
  trace : list event
}.

Definition io (A : Type) : Type := world -> result A * world.

Definition ret {A} (a : A) : io A := fun w => (Ok a, w).

Definition bind {A B} (m : io A) (k : A -> io B) : io B :=
  fun w =>
    match m w with
    | (Ok a, w') => k a w'
    | (Raise e, w') => (Raise e, w')
    end.

(** [try: body / except RateLimitError: handler] *)
Definition except_rate_limit {A} (body handler : io A) : io A :=
  fun w =>
    match body w with
    | (Raise RateLimitError, w') => handler w'
    | other => other
    end.

Definition lift {A} (r : result A) : io A := fun w => (r, w).

Declare Scope io_scope.
Delimit Scope io_scope with io.
Notation "x <- m ;; k" := (bind m (fun x => k))
  (at level 61, m at next level, right associativity) : io_scope.
Notation "m ;; k" := (bind m (fun _ => k))
  (at level 61, right associativity) : io_scope.

(** [await self.client.embeddings.create(model=..., input=texts, ...)] *)
Definition embeddings_create (client : provider) (model : str)
    (texts : list str) : io (list (list float)) :=
  fun w =>
    let r := client (requests w) model texts in
    let w' := {| requests := S (requests w);
                 trace := trace w ++ [Request model texts r] |} in
    match r with
    | Data vectors => (Ok vectors, w')
    | Fails e => (Raise e, w')
    end.

(** [await asyncio.sleep(...)] *)
Definition sleep (ms : Z) : io unit :=
  fun w => (Ok tt, {| requests := requests w;
                      trace := trace w ++ [Sleep ms] |}).

(** *** Token counting *)

(** The module-level name [encoding]: [None] when tiktoken fails to load;
    otherwise its [encode], which returns the tokens or raises ([None]). *)
Definition token_encoding : Type := option (str -> option (list Z)).

Definition count_tokens (encoding : token_encoding) (text : str) : Z :=
  let fallback := Z.max 1 (len text / 3) in
  match encoding with
  | Some encode =>
      match encode text with
      | Some toks => len toks
      | None => fallback
      end
  | None => fallback
  end.

(** *** The service *)

Record EmbeddingsService : Type := {
  model : str;
  batch_size : Z;
  max_tokens_per_batch : Z
}.

(** [__init__] fixes the dimension of text-embedding-3-small. *)
Definition embedding_dimension (self : EmbeddingsService) : Z := 1536.

(** [EmbeddingsService()] with the default arguments. *)
Definition default_service : EmbeddingsService :=
  {| model := lit "text-embedding-3-small";
     batch_size := 40;
     max_tokens_per_batch := 3500 |}.

Definition _create_embedded_chunk_batch (encoding : token_encoding)
    (chunks : list Chunk) : IngestionBatch :=
  let total_tokens :=
    sum (map (fun chunk => count_tokens encoding (text chunk)) chunks) in
  let embedded_chunks :=
    map (fun chunk =>
           {| chunk := chunk;
              embedding := [];
              numeric_id := 0;
              tokens := count_tokens encoding (text chunk) |}) chunks in
  {| embedded_chunks := embedded_chunks;
     total_tokens := total_tokens;
     Models.batch_size := len chunks |}.

(** [chunk.text = chunk.text[:9000]] *)
Definition set_text (chunk : Chunk) (new_text : str) : Chunk :=
  {| text := new_text;
     metadata := metadata chunk;
     string_id := string_id chunk |}.

(** The body of [for chunk in chunks] in [_create_batches]; the loop state
    is [(batches, current_batch_chunks, current_tokens)]. *)
Definition batch_step (encoding : token_encoding)
    (self : EmbeddingsService)
    (st : list IngestionBatch * list Chunk * Z) (chunk : Chunk)
  : list IngestionBatch * list Chunk * Z :=
  let '(batches, current_batch_chunks, current_tokens) := st in
  let chunk_tokens := count_tokens encoding (text chunk) in
  let '(chunk, chunk_tokens) :=
    if chunk_tokens >? 3000 then
      let chunk := set_text chunk (slice_to 9000 (text chunk)) in
      (chunk, count_tokens encoding (text chunk))
    else (chunk, chunk_tokens) in
  let '(batches, current_batch_chunks, current_tokens) :=
    if ((len current_batch_chunks >=? batch_size self)
        || (current_tokens + chunk_tokens >? max_tokens_per_batch self))
       && truthy current_batch_chunks
    then
      let batch :=
        _create_embedded_chunk_batch encoding current_batch_chunks in
      (batches ++ [batch], [], 0)
    else (batches, current_batch_chunks, current_tokens) in
  (batches, current_batch_chunks ++ [chunk], current_tokens + chunk_tokens).

Definition _create_batches (encoding : token_encoding)
    (self : EmbeddingsService) (chunks : list Chunk)
  : list IngestionBatch :=
  let '(batches, current_batch_chunks, _) :=
    fold_left (batch_step encoding self) chunks ([], [], 0) in
  if truthy current_batch_chunks
  then batches ++ [_create_embedded_chunk_batch encoding
                     current_batch_chunks]
  else batches.

(** The loop of [_embed_batch] over [enumerate(batch.embedded_chunks)],
    from index [idx] on: [response.data[idx]] raises [IndexError] past the
    end of the response, a vector of the wrong length raises
    [ValueError]. *)
Fixpoint map_embeddings (self : EmbeddingsService)
    (data : list (list float)) (idx : nat)
    (chunk_objs : list EmbeddedChunk) : result (list EmbeddedChunk) :=
  match chunk_objs with
  | [] => Ok []
  | chunk_obj :: rest =>
      match nth_error data idx with
      | None => Raise IndexError
      | Some embedding' =>
          if negb (len embedding' =? embedding_dimension self)
          then Raise ValueError
          else
            let numeric_id' :=
              Hashing.string_to_numeric_id (string_id (chunk chunk_obj)) in
            match map_embeddings self data (S idx) rest with
            | Raise e => Raise e
            | Ok embedded =>
                Ok ({| chunk := chunk chunk_obj;
                       embedding := embedding';
                       numeric_id := numeric_id';
                       tokens := tokens chunk_obj |} :: embedded)
            end
      end
  end.

(** [except APIError: log and re-raise] leaves every outcome as it is. *)
Definition _embed_batch (client : provider) (self : EmbeddingsService)
    (batch : IngestionBatch) : io (list EmbeddedChunk) :=
  let texts := map (fun c => text (chunk c)) (embedded_chunks batch) in
  (data <- embeddings_create client (model self) texts ;;
   lift (map_embeddings self data 0 (embedded_chunks batch)))%io.

(** The [try]/[except RateLimitError] of one iteration of the loop of
    [generate_embeddings]. *)
Definition embed_with_retry (client : provider) (self : EmbeddingsService)
    (batch : IngestionBatch) : io (list EmbeddedChunk) :=
  except_rate_limit
    (_embed_batch client self batch)
    (sleep 5000 ;; _embed_batch client self batch)%io.

(** [for batch_idx, batch in enumerate(batches)], from [batch_idx] on;
    [n_batches] is [len(batches)] of the whole list.  The running token and
    cost totals only feed log messages and are left out. *)
Fixpoint batch_loop (client : provider) (self : EmbeddingsService)
    (batch_delay_ms : Z) (n_batches : Z) (batch_idx : Z)
    (batches : list IngestionBatch) (embedded_chunks : list EmbeddedChunk)
  : io (list EmbeddedChunk) :=
  match batches with
  | [] => ret embedded_chunks
  | batch :: rest =>
      (batch_embedded <- embed_with_retry client self batch ;;
       let embedded_chunks := embedded_chunks ++ batch_embedded in
       (if batch_idx <? n_batches - 1 then sleep batch_delay_ms
        else ret tt) ;;
       batch_loop client self batch_delay_ms n_batches (batch_idx + 1)
         rest embedded_chunks)%io
  end.

Definition generate_embeddings (encoding : token_encoding)
    (client : provider) (self : EmbeddingsService) (chunks : list Chunk)
    (batch_delay_ms : Z) : io (list EmbeddedChunk) :=
  if negb (truthy chunks) then ret []
  else
    let batches := _create_batches encoding self chunks in
    batch_loop client self batch_delay_ms (len batches) 0 batches [].

(** The token count that [estimate_cost] returns, the first component of
    its pair; the second component is a floating-point product of it and is
    left out. *)
Definition estimate_cost_tokens (encoding : token_encoding)
    (chunks : list Chunk) : Z :=
  sum (map (fun chunk => count_tokens encoding (text chunk)) chunks).

(** A run that starts after [n] earlier requests, with an empty trace. *)
Definition start (n : nat) : world := {| requests := n; trace := [] |}.

End Embeddings.

(** ** Predicates used by the statements *)

Module Props.
Import Models.

(** Characters that [generate_chunk_id] sends to a hyphen (and the hyphen
    itself): space, slash, period, hyphen. *)
Definition hyphenated (c : Z) : bool :=
  (c =? 32) || (c =? 47) || (c =? 46) || (c =? 45).

(** Two characters that are equal or both end up as a hyphen. *)
Definition same_after_sanitize (a b : Z) : Prop :=
  a = b \/ (hyphenated a = true /\ hyphenated b = true).

(** A string with at least one character that [strip] keeps. *)
Definition nonblank (s : str) : bool :=
  existsb (fun c => negb (isspace c)) s.

Definition has_space (s : str) : bool := existsb (Z.eqb 32) s.

Definition all_nonblank (l : list str) : Prop :=
  Forall (fun s => nonblank s = true) l.

(** A buffer is empty or has visible text. *)
Definition buffer_ok (current : str) : Prop :=
  current = [] \/ nonblank current = true.

Definition has_terminator (s : str) : bool :=
  existsb Chunker.is_terminator s.

Definition all_within (bound : Z) (l : list str) : Prop :=
  Forall (fun s => len s <= bound) l.

(** On the regex branch, the sentences of a paragraph are the matches of the
    sentence pattern.  Every paragraph longer than [max_chunk_size] has such
    sentences, and none of them is longer than [max_chunk_size]. *)
Definition regex_sentences_fit (self : Chunker.TextChunker) (text : str)
  : Prop :=
  forall p,
    In p (Chunker.split_paragraphs [] text) ->
    Chunker.max_chunk_size self < len (strip p) ->
    Chunker.findall_sentences [] false (strip p) <> []
    /\ all_within (Chunker.max_chunk_size self)
         (Chunker.findall_sentences [] false (strip p)).

(** Every sentence that the NLTK tokenizer returns has visible text. *)
Definition tokenizer_nonblank (sent_tokenize : Chunker.tokenizer) : Prop :=
  forall tokenize text sentences,
    sent_tokenize = Some tokenize ->
    tokenize text = Some sentences ->
    Forall (fun s => nonblank s = true) sentences.

(** The window from which the chunker seeds the next buffer: the two
    statements that follow [chunks.append(current_chunk)]. *)
Definition overlap_window (self : Chunker.TextChunker) (current_chunk : str)
  : str :=
  slice_from (- Chunker.overlap_size self) current_chunk.

Definition overlap_seed (self : Chunker.TextChunker) (current_chunk : str)
  : str :=
  Chunker._get_overlap_at_word_boundary self
    (overlap_window self current_chunk).

Definition chunk_texts (r : result (list Chunk)) : option (list str) :=
  match r with
  | Ok chunks => Some (map text chunks)
  | Raise _ => None
  end.

Definition chunk_indices (chunks : list Chunk) : list Z :=
  map (fun c => chunk_index (metadata c)) chunks.

(** Metadata and chunker configurations for the worked examples. *)
Definition usc_195 : Metadata :=
  {| md_source_type := lit "usc";
     md_citation := lit "26 U.S.C. 195";
     md_title := None;
     md_section := None;
     md_url := None;
     md_version_date := None;
     md_extra_fields := [] |}.

Definition small_chunker : Chunker.TextChunker :=
  {| Chunker.max_chunk_size := 10; Chunker.overlap_size := 3 |}.

Definition no_overlap_chunker : Chunker.TextChunker :=
  {| Chunker.max_chunk_size := 10; Chunker.overlap_size := 0 |}.

(** *** Batching *)

Definition chunk_tokens (encoding : Embeddings.token_encoding) (c : Chunk)
  : Z :=
  Embeddings.count_tokens encoding (text c).

(** A chunk as [_create_batches] stores it: truncated to 9000 characters
    when it counts more than 3000 tokens, untouched otherwise. *)
Definition prepare (encoding : Embeddings.token_encoding) (c : Chunk)
  : Chunk :=
  if chunk_tokens encoding c >? 3000
  then Embeddings.set_text c (slice_to 9000 (text c))
  else c.

Definition batch_chunks (b : IngestionBatch) : list Chunk :=
  map chunk (embedded_chunks b).

(** A batch is not empty, records its own size and token total, holds at
    most [batch_size] chunks, and stays within the token budget unless it is
    a single chunk that alone exceeds the budget. *)
Definition within_limits (encoding : Embeddings.token_encoding)
    (self : Embeddings.EmbeddingsService) (b : IngestionBatch) : Prop :=
  let cs := batch_chunks b in
  cs <> []
  /\ Models.batch_size b = len cs
  /\ total_tokens b = sum (map (chunk_tokens encoding) cs)
  /\ len cs <= Embeddings.batch_size self
  /\ (total_tokens b <= Embeddings.max_tokens_per_batch self
      \/ exists c, cs = [c]
                   /\ Embeddings.max_tokens_per_batch self
                      < chunk_tokens encoding c).

(** The invariant of the loop of [_create_batches] once the chunks [done]
    have been read. *)
Definition batching_invariant (encoding : Embeddings.token_encoding)
    (self : Embeddings.EmbeddingsService) (done : list Chunk)
    (st : list IngestionBatch * list Chunk * Z) : Prop :=
  let '(batches, current, current_tokens) := st in
  Forall (within_limits encoding self) batches
  /\ concat (map batch_chunks batches) ++ current
     = map (prepare encoding) done
  /\ current_tokens = sum (map (chunk_tokens encoding) current)
  /\ (current = []
      \/ (len current <= Embeddings.batch_size self
          /\ (current_tokens <= Embeddings.max_tokens_per_batch self
              \/ exists c, current = [c]
                           /\ Embeddings.max_tokens_per_batch self
                              < chunk_tokens encoding c))).

(** The sizes in a state of the loop of [_create_batches], and the loop as
    seen on sizes and token counts only. *)
Definition sizes_of (st : list IngestionBatch * list Chunk * Z)
  : list Z * Z * Z :=
  let '(batches, current, current_tokens) := st in
  (map Models.batch_size batches, len current, current_tokens).

Definition size_step (self : Embeddings.EmbeddingsService)
    (st : list Z * Z * Z) (t : Z) : list Z * Z * Z :=
  let '(sizes, n, current_tokens) := st in
  if ((n >=? Embeddings.batch_size self)
      || (current_tokens + t >? Embeddings.max_tokens_per_batch self))
     && (0 <? n)
  then (sizes ++ [n], 1, t)
  else (sizes, n + 1, current_tokens + t).

Definition final_sizes (st : list Z * Z * Z) : list Z :=
  let '(sizes, n, _) := st in
  if 0 <? n then sizes ++ [n] else sizes.

(** *** The embedding run *)

(** The texts that [_embed_batch] sends for a batch. *)
Definition request_texts (batch : IngestionBatch) : list str :=
  map (fun c => text (chunk c)) (embedded_chunks batch).

(** The world after [k] more requests and the events [evs]. *)
Definition extend (w : Embeddings.world) (k : nat)
    (evs : list Embeddings.event) : Embeddings.world :=
  {| Embeddings.requests := k + Embeddings.requests w;
     Embeddings.trace := Embeddings.trace w ++ evs |}.

(** A response holds, at a position that answers one of the texts of the
    request, a vector whose length is not the configured dimension. *)
Definition mismatch (self : Embeddings.EmbeddingsService)
    (texts : list str) (vectors : list (list float)) : Prop :=
  exists j v,
    (j < List.length texts)%nat
    /\ nth_error vectors j = Some v
    /\ len v <> Embeddings.embedding_dimension self.

Definition bad_event (self : Embeddings.EmbeddingsService)
    (ev : Embeddings.event) : Prop :=
  match ev with
  | Embeddings.Request _ texts (Embeddings.Data vectors) =>
      mismatch self texts vectors
  | _ => False
  end.

(** Chunks, providers and vectors for the worked examples. *)
Definition example_chunk (chunk_text : str) : Chunk :=
  Chunker.make_chunk usc_195 chunk_text 0 1.

(** A chunk that the fallback heuristic counts as 50 tokens. *)
Definition fifty_token_chunk : Chunk := example_chunk (repeat 97 150).

Definition good_vector : list float := repeat 0%float 1536.

(** A provider that is throttled on every request. *)
Definition always_throttled : Embeddings.provider :=
  fun _ _ _ => Embeddings.Fails RateLimitError.

(** A provider that is throttled on its first request only. *)
Definition throttled_once : Embeddings.provider :=
  fun n _ texts =>
    match n with
    | O => Embeddings.Fails RateLimitError
    | S _ => Embeddings.Data (map (fun _ => good_vector) texts)
    end.

(** A provider that is down. *)
Definition unavailable : Embeddings.provider :=
  fun _ _ _ => Embeddings.Fails APIError.

(** A provider that answers its second request with a short vector. *)
Definition short_on_second : Embeddings.provider :=
  fun n _ texts =>
    match n with
    | 1%nat => Embeddings.Data (map (fun _ => [0%float]) texts)
    | _ => Embeddings.Data (map (fun _ => good_vector) texts)
    end.

(** A service that sends one chunk per request. *)
Definition one_per_batch : Embeddings.EmbeddingsService :=
  {| Embeddings.model := lit "text-embedding-3-small";
     Embeddings.batch_size := 1;
     Embeddings.max_tokens_per_batch := 3500 |}.

(** *** Further predicates: identifiers *)

(** The UTF-16 code units of one code point, which is what [charCodeAt]
    reads in the TypeScript original: a code point from U+10000 on is a
    surrogate pair. *)
Definition utf16_units_of (c : Z) : list Z :=
  if c <? 65536 then [c]
  else [55296 + (c - 65536) / 1024; 56320 + (c - 65536) mod 1024].

Definition utf16_units (s : str) : list Z := flat_map utf16_units_of s.

(** The TypeScript original quoted in the docstring of the hashing module,
    run on the string whose code points are [s]. *)
Definition typescript_numeric_id (s : str) : Z :=
  Hashing.numeric_id_spec (utf16_units s).

(** The accumulator of [string_to_numeric_id] without any reduction. *)
Definition poly31 (s : str) : Z :=
  fold_left (fun acc c => acc * 31 + c) s 0.

(** *** Further predicates: normalised text and chunks *)

(** No run of three newlines, when [run] newlines come just before [s]. *)
Fixpoint no_triple_newline_from (run : nat) (s : str) : bool :=
  match s with
  | [] => true
  | c :: s' =>
      if c =? 10
      then (run <? 2)%nat && no_triple_newline_from (S run) s'
      else no_triple_newline_from 0 s'
  end.

Definition no_triple_newline (s : str) : bool := no_triple_newline_from 0 s.

(** No two spaces in a row. *)
Fixpoint no_double_space (s : str) : bool :=
  match s with
  | [] => true
  | c :: s' =>
      negb ((c =? 32) && match s' with c' :: _ => c' =? 32 | [] => false end)
      && no_double_space s'
  end.

(** Two newlines in a row somewhere in [s]: a paragraph separator. *)
Fixpoint has_para_sep (s : str) : bool :=
  match s with
  | [] => false
  | c :: s' =>
      match s' with
      | c' :: _ => ((c =? 10) && (c' =? 10)) || has_para_sep s'
      | [] => false
      end
  end.

(** A chunk of a document with metadata [md]: visible text without white
    space at either end, the document's source type and citation, and the
    string id of its own index. *)
Definition chunk_of_document (md : Metadata) (c : Chunk) : Prop :=
  text c <> []
  /\ strip (text c) = text c
  /\ source_type (metadata c) = md_source_type md
  /\ citation (metadata c) = md_citation md
  /\ string_id c
     = Hashing.generate_chunk_id (source_type (metadata c))
         (citation (metadata c)) (chunk_index (metadata c)).

(** [p] occurs in [s] as a run of consecutive characters. *)
Definition infix (p s : str) : Prop := exists a b, s = a ++ p ++ b.

(** In a state [(chunks, current_chunk)] of the paragraph loop, the text [p]
    is inside a finished chunk or inside the buffer. *)
Definition kept (p : str) (st : list str * str) : Prop :=
  Exists (infix p) (fst st) \/ infix p (snd st).

(** A text that starts and ends with a visible character. *)
Definition visible_ends (p : str) : Prop :=
  (exists c t, p = c :: t /\ isspace c = false)
  /\ (exists c t, rev p = c :: t /\ isspace c = false).

(** What it takes for one iteration of the paragraph loop to fail: the
    paragraph is longer than [max_chunk_size] and NLTK's tokenizer returns
    for it nothing but empty sentences. *)
Definition empty_sentence_list (sent_tokenize : Chunker.tokenizer)
    (self : Chunker.TextChunker) (paragraph : str) : Prop :=
  Chunker.max_chunk_size self < len (strip paragraph)
  /\ exists tokenize sentences,
       sent_tokenize = Some tokenize
       /\ tokenize (strip paragraph) = Some sentences
       /\ Forall (fun sent => sent = []) sentences.

(** A tokenizer that finds no sentence at all. *)
Definition silent_tokenizer : Chunker.tokenizer :=
  Some (fun _ => Some []).

Definition example_documents : list Chunker.Document :=
  [ {| Chunker.doc_text := lit " Sec.  195 ";
       Chunker.doc_metadata := usc_195 |};
    {| Chunker.doc_text := lit "xyz" ++ Chunker.PARA_SEP
                           ++ lit "Aaaa. Bbbb. Cccc.";
       Chunker.doc_metadata := usc_195 |} ].

(** *** Further predicates: batches and runs *)

(** The batch [g] could not take the chunk [next]: it already holds
    [batch_size] chunks, or [next] would push it over the token budget. *)
Definition batch_full (encoding : Embeddings.token_encoding)
    (self : Embeddings.EmbeddingsService) (g : list Chunk) (next : Chunk)
  : Prop :=
  Embeddings.batch_size self <= len g
  \/ Embeddings.max_tokens_per_batch self
     < sum (map (chunk_tokens encoding) g) + chunk_tokens encoding next.

(** Every group but the last was closed only because it could not take the
    first chunk of the group that follows it. *)
Fixpoint closed_when_full (encoding : Embeddings.token_encoding)
    (self : Embeddings.EmbeddingsService) (groups : list (list Chunk))
  : Prop :=
  match groups with
  | [] => True
  | g1 :: rest =>
      match rest with
      | (next :: _) :: _ => batch_full encoding self g1 next
      | _ => True
      end
      /\ closed_when_full encoding self rest
  end.

(** An embedded chunk as a run returns it: a vector of the configured
    dimension, the numeric id of its string id, and the token count of its
    text. *)
Definition embedded_properly (encoding : Embeddings.token_encoding)
    (self : Embeddings.EmbeddingsService) (ec : EmbeddedChunk) : Prop :=
  len (embedding ec) = Embeddings.embedding_dimension self
  /\ numeric_id ec = Hashing.string_to_numeric_id (string_id (chunk ec))
  /\ tokens ec = chunk_tokens encoding (chunk ec).

(** A placeholder of a batch records the token count of its chunk. *)
Definition counted (encoding : Embeddings.token_encoding)
    (o : EmbeddedChunk) : Prop :=
  tokens o = chunk_tokens encoding (chunk o).



(** The durations of the sleeps of a trace, in order. *)
Definition sleeps (tr : list Embeddings.event) : list Z :=
  flat_map (fun ev => match ev with
                      | Embeddings.Sleep ms => [ms]
                      | Embeddings.Request _ _ _ => []
                      end) tr.

(** A provider that answers every request with one vector of the configured
    dimension per text. *)
Definition obliging (self : Embeddings.EmbeddingsService)
    (client : Embeddings.provider) : Prop :=
  forall n m texts,
    exists vectors,
      client n m texts = Embeddings.Data vectors
      /\ List.length vectors = List.length texts
      /\ Forall (fun v => len v = Embeddings.embedding_dimension self)
           vectors.

(** The trace of a run without failures: one request per batch, in order,
    the [k]-th request of the provider first, and a sleep between two
    batches. *)
Fixpoint calm_trace (client : Embeddings.provider)
    (self : Embeddings.EmbeddingsService) (batch_delay_ms : Z) (k : nat)
    (batches : list IngestionBatch) : list Embeddings.event :=
  match batches with
  | [] => []
  | batch :: rest =>
      Embeddings.Request (Embeddings.model self) (request_texts batch)
        (client k (Embeddings.model self) (request_texts batch))
      :: match rest with
         | [] => []
         | _ :: _ =>
             Embeddings.Sleep batch_delay_ms
             :: calm_trace client self batch_delay_ms (S k) rest
         end
  end.

(** A chunk of 12000 characters, which the heuristic counts as 4000
    tokens. *)
Definition long_chunk : Chunk :=
  example_chunk (repeat 97 (Z.to_nat 12000)).


(** A provider that always answers well. *)
Definition steady : Embeddings.provider :=
  fun _ _ texts => Embeddings.Data (map (fun _ => good_vector) texts).

End Props.

(* ================================================================= *)
(** * Part II: properties *)
(* ================================================================= *)

(** ** Identifier generation *)

Module HashingFacts.
Import Hashing Props.

Lemma hash_step_is_spec_step (h c : Z) : hash_step h c = spec_step h c.
Proof.
  unfold hash_step, spec_step, wrap32.
  change 0xFFFFFFFF with (Z.ones 32).
  rewrite Z.land_ones by lia.
  rewrite Z.shiftl_mul_pow2 by lia.
  f_equal. change (2 ^ 5) with 32. lia.
Qed.

Lemma fold_hash_is_fold_spec (s : str) (h : Z) :
  fold_left hash_step s h = fold_left spec_step s h.
Proof.
  revert h. induction s as [|c s IH]; intros h; simpl.
  - reflexivity.
  - rewrite hash_step_is_spec_step. apply IH.
Qed.

Lemma fold_spec_range (s : str) (h : Z) :
  0 <= h < 2 ^ 32 -> 0 <= fold_left spec_step s h < 2 ^ 32.
Proof.
  revert h. induction s as [|c s IH]; intros h Hh; simpl.
  - exact Hh.
  - apply IH. unfold spec_step, wrap32. apply Z.mod_pos_bound. lia.
Qed.

(** What the code computes: the unsigned 32-bit accumulator itself; the
    final [abs] never changes it. *)
Lemma string_to_numeric_id_unsigned (s : str) :
  string_to_numeric_id s = fold_left spec_step s 0.
Proof.
  unfold string_to_numeric_id. rewrite fold_hash_is_fold_spec.
  apply Z.abs_eq. apply fold_spec_range. lia.
Qed.

(** The output is a non-negative integer below [2^32]. *)
Lemma string_to_numeric_id_range (s : str) :
  0 <= string_to_numeric_id s < 2 ^ 32.
Proof.
  rewrite string_to_numeric_id_unsigned. apply fold_spec_range. lia.
Qed.

(** The code agrees with the specified algorithm exactly when the final
    accumulator does not exceed [2^31], that is, when its sign bit is clear
    (or it is [2^31] itself). *)
Lemma string_to_numeric_id_agrees_iff (s : str) :
  string_to_numeric_id s = numeric_id_spec s <->
  fold_left spec_step s 0 <= 2 ^ 31.
Proof.
  rewrite string_to_numeric_id_unsigned. unfold numeric_id_spec, to_signed32.
  pose proof (fold_spec_range s 0 ltac:(lia)) as R.
  destruct (fold_left spec_step s 0 <? 2 ^ 31) eqn:E.
  - apply Z.ltb_lt in E. rewrite Z.abs_eq by lia. split; intros; lia.
  - apply Z.ltb_ge in E. rewrite Z.abs_neq by lia. split; intros; lia.
Qed.

(** C1 (code bug).  On the string id ["usc-1-chunk-0"] the code returns the
    unsigned accumulator 3437013228, whereas the specified algorithm (signed
    reading of the 32-bit accumulator, then absolute value) gives
    857954068. *)
Theorem string_to_numeric_id_misses_sign :
  string_to_numeric_id (lit "usc-1-chunk-0") = 3437013228 /\
  numeric_id_spec (lit "usc-1-chunk-0") = 857954068 /\
  string_to_numeric_id (lit "usc-1-chunk-0")
    <> numeric_id_spec (lit "usc-1-chunk-0").
Proof.
  repeat split; try reflexivity. vm_compute. discriminate.
Qed.

Lemma sanitize_char (c : Z) :
  sanitize [c] = [if hyphenated c then 45 else c].
Proof.
  unfold sanitize, replace1, hyphenated. simpl.
  destruct (c =? 32) eqn:E1; simpl.
  - reflexivity.
  - destruct (c =? 47) eqn:E2; simpl.
    + reflexivity.
    + destruct (c =? 46) eqn:E3; simpl.
      * reflexivity.
      * destruct (c =? 45) eqn:E4; simpl; [|reflexivity].
        apply Z.eqb_eq in E4. now subst.
Qed.

Lemma sanitize_cons (c : Z) (s : str) :
  sanitize (c :: s) = sanitize [c] ++ sanitize s.
Proof. reflexivity. Qed.

Lemma sanitize_pointwise (c1 c2 : str) :
  Forall2 same_after_sanitize c1 c2 -> sanitize c1 = sanitize c2.
Proof.
  induction 1 as [|a b l1 l2 Hab _ IH].
  - reflexivity.
  - rewrite (sanitize_cons a), (sanitize_cons b), IH, !sanitize_char.
    destruct Hab as [->|[Ha Hb]]; [reflexivity|now rewrite Ha, Hb].
Qed.

(** C10.  [generate_chunk_id] is not injective in the citation: with the
    same source type and chunk index, two citations that agree after the
    replacement of space, slash and period by a hyphen (in particular two
    citations that differ only in which of space, period, slash, hyphen a
    position holds) get the same string id and hence the same numeric id;
    and such distinct citations exist. *)
Theorem generate_chunk_id_not_injective :
  (forall (source_type c1 c2 : str) (chunk_index : Z),
      sanitize c1 = sanitize c2 ->
      generate_chunk_id source_type c1 chunk_index
        = generate_chunk_id source_type c2 chunk_index
      /\ string_to_numeric_id (generate_chunk_id source_type c1 chunk_index)
         = string_to_numeric_id
             (generate_chunk_id source_type c2 chunk_index)
      /\ generate_numeric_chunk_id source_type c1 chunk_index
         = generate_numeric_chunk_id source_type c2 chunk_index)
  /\ (forall c1 c2 : str,
         Forall2 same_after_sanitize c1 c2 -> sanitize c1 = sanitize c2)
  /\ (exists c1 c2 : str,
         c1 <> c2 /\
         forall (source_type : str) (chunk_index : Z),
           generate_chunk_id source_type c1 chunk_index
           = generate_chunk_id source_type c2 chunk_index).
Proof.
  split; [|split].
  - intros st c1 c2 i H.
    assert (E : generate_chunk_id st c1 i = generate_chunk_id st c2 i)
      by (unfold generate_chunk_id; now rewrite H).
    unfold generate_numeric_chunk_id. rewrite E. auto.
  - exact sanitize_pointwise.
  - exists (lit "1.195-2"), (lit "1 195/2"). split.
    + discriminate.
    + intros st i. unfold generate_chunk_id. reflexivity.
Qed.

Lemma generate_chunk_id_not_injective_witness :
  sanitize (lit "26 U.S.C. 195") = sanitize (lit "26-U/S C--195") /\
  generate_numeric_chunk_id (lit "usc") (lit "26 U.S.C. 195") 0
  = generate_numeric_chunk_id (lit "usc") (lit "26-U/S C--195") 0.
Proof.
  split; [reflexivity|].
  apply (proj1 generate_chunk_id_not_injective
           (lit "usc") (lit "26 U.S.C. 195") (lit "26-U/S C--195") 0).
  reflexivity.
Defined.

End HashingFacts.

(** ** Chunking: short documents, overlap, oversized paragraphs *)

Module ChunkerFacts.
Import Models Chunker Props.

Lemma truthy_false_nil {A} (l : list A) : truthy l = false -> l = [].
Proof. destruct l; [reflexivity|discriminate]. Qed.

Lemma truthy_true_cons {A} (l : list A) : truthy l = true <-> l <> [].
Proof. destruct l; simpl; split; congruence. Qed.

Lemma len_nonneg {A} (l : list A) : 0 <= len l.
Proof. unfold len. lia. Qed.

Lemma len_app {A} (a b : list A) : len (a ++ b) = len a + len b.
Proof. unfold len. rewrite length_app. lia. Qed.

(** [s[-n:]] holds at most [n] characters when [n] is positive. *)
Lemma len_slice_from_neg {A} (n : Z) (s : list A) :
  0 < n -> len (slice_from (- n) s) <= n.
Proof.
  intros Hn. unfold slice_from, clamp, len.
  replace (- n <? 0) with true by (symmetry; apply Z.ltb_lt; lia).
  rewrite length_skipn. lia.
Qed.

(** With a positive [overlap_size] the caller has already cut the text down
    to [overlap_size] characters, so the word-boundary search is never
    reached and the seed is the window itself. *)
Lemma overlap_seed_is_window (self : TextChunker) (current_chunk : str) :
  0 < overlap_size self ->
  overlap_seed self current_chunk = overlap_window self current_chunk.
Proof.
  intros Hov. unfold overlap_seed, _get_overlap_at_word_boundary.
  pose proof (len_slice_from_neg (overlap_size self) current_chunk Hov) as L.
  fold (overlap_window self current_chunk) in L.
  apply Z.leb_le in L. now rewrite L.
Qed.

(** C6.  A document whose normalised text is empty yields no chunk; one
    whose normalised text is not empty and fits [max_chunk_size] yields
    exactly one chunk, holding the normalised text, with [chunk_index = 0]
    and [total_chunks = 1]. *)
Theorem chunk_document_empty_or_short
    (sent_tokenize : tokenizer) (self : TextChunker) (text : str)
    (md : Metadata) :
  (_clean_text text = [] ->
   chunk_document sent_tokenize self text md = Ok [])
  /\ (_clean_text text <> [] ->
      len (_clean_text text) <= max_chunk_size self ->
      exists c,
        chunk_document sent_tokenize self text md = Ok [c]
        /\ Models.text c = _clean_text text
        /\ chunk_index (metadata c) = 0
        /\ total_chunks (metadata c) = 1).
Proof.
  unfold chunk_document. split.
  - intros ->. reflexivity.
  - intros Hne Hle. apply truthy_true_cons in Hne. rewrite Hne. simpl.
    apply Z.leb_le in Hle. rewrite Hle.
    eexists. repeat split; reflexivity.
Qed.

Lemma chunk_document_empty_or_short_witness :
  chunk_document None small_chunker (lit "   ") usc_195 = Ok []
  /\ exists c,
       chunk_document None small_chunker (lit " Sec.  195 ") usc_195 = Ok [c]
       /\ Models.text c = lit "Sec. 195"
       /\ chunk_index (metadata c) = 0
       /\ total_chunks (metadata c) = 1.
Proof.
  split.
  - apply (proj1 (chunk_document_empty_or_short
                    None small_chunker (lit "   ") usc_195)).
    reflexivity.
  - apply (proj2 (chunk_document_empty_or_short
                    None small_chunker (lit " Sec.  195 ") usc_195)).
    + discriminate.
    + vm_compute. discriminate.
Defined.

(** A paragraph that does not fit is only handled inside
    [if current_chunk:]; with an empty buffer the iteration changes
    nothing. *)
Lemma paragraph_step_empty_buffer
    (sent_tokenize : tokenizer) (self : TextChunker) (chunks : list str)
    (paragraph : str) :
  max_chunk_size self < len (strip paragraph) + 2 ->
  paragraph_step sent_tokenize self (chunks, []) paragraph = Ok (chunks, []).
Proof.
  intros H. unfold paragraph_step.
  destruct (truthy (strip paragraph)); simpl; [|reflexivity].
  destruct (_ <=? _) eqn:E; [|reflexivity].
  apply Z.leb_le in E. lia.
Qed.

(** C7 (code bug).  With [max_chunk_size = 10] the one-paragraph document
    ["Aaaa. Bbbb. Cccc."] (17 characters) yields no chunk at all, whatever
    the sentence tokenizer: the oversized first paragraph is discarded.  When
    the same paragraph comes second, the regex branch splits it into three
    groups but the middle one, ["Bbbb."], appears in no chunk. *)
Theorem oversized_paragraph_is_lost :
  (forall sent_tokenize,
      chunk_document sent_tokenize small_chunker (lit "Aaaa. Bbbb. Cccc.")
        usc_195 = Ok [])
  /\ _split_by_sentences None small_chunker (lit "Aaaa. Bbbb. Cccc.")
     = [lit "Aaaa."; lit "Bbbb."; lit "Cccc."]
  /\ chunk_texts
       (chunk_document None small_chunker
          (lit "xyz" ++ PARA_SEP ++ lit "Aaaa. Bbbb. Cccc.") usc_195)
     = Some [lit "xyz"; lit "xyzAaaa."; lit "xyzCccc."].
Proof.
  split; [|split].
  - intros tok. reflexivity.
  - reflexivity.
  - reflexivity.
Qed.

(** C8 (code bug).  The helper [_get_overlap_at_word_boundary] is documented
    to keep the overlap from cutting words in half, and the claim has the
    seed trimmed to a word boundary, or dropped when the window holds no
    space.  The caller cuts the text down to [overlap_size] characters before
    it calls the helper, so the helper returns it untouched.  With
    [overlap_size = 3]: after the buffer ["abcdef"] the window ["def"] holds
    no space, yet the seed is ["def"] and the next chunk is ["defghijkl"],
    which starts in the middle of a word; after the buffer ["abc de f"] the
    seed is ["e f"], which starts with the tail of the word ["de"].  After an
    oversized paragraph the last chunk is not even seeded from the chunk
    flushed just before it: ["xyzCccc."] follows ["xyzAaaa."]. *)
Theorem overlap_cuts_words :
  overlap_window small_chunker (lit "abcdef") = lit "def"
  /\ has_space (overlap_window small_chunker (lit "abcdef")) = false
  /\ overlap_seed small_chunker (lit "abcdef") = lit "def"
  /\ chunk_texts
       (chunk_document None small_chunker
          (lit "abcdef" ++ PARA_SEP ++ lit "ghijkl") usc_195)
     = Some [lit "abcdef"; lit "defghijkl"]
  /\ overlap_seed small_chunker (lit "abc de f") = lit "e f"
  /\ chunk_texts
       (chunk_document None small_chunker
          (lit "abc de f" ++ PARA_SEP ++ lit "ghijkl") usc_195)
     = Some [lit "abc de f"; lit "e fghijkl"]
  /\ chunk_texts
       (chunk_document None small_chunker
          (lit "xyz" ++ PARA_SEP ++ lit "Aaaa. Bbbb. Cccc.") usc_195)
     = Some [lit "xyz"; lit "xyzAaaa."; lit "xyzCccc."].
Proof. repeat split; reflexivity. Qed.

(** C4 (code bug).  With [max_chunk_size = 10] and [overlap_size = 3] the
    paragraph ["Aaaa. Bbbb. Cccc."] has three sentences of five characters
    each.  The NLTK branch joins the first two with a space into an
    11-character group, and the chunk that carries it is 14 characters long,
    above [10 + 3].  Separately, with [overlap_size = 0] the slice
    [current_chunk[-0:]] is the whole buffer, and two six-character
    paragraphs give a 12-character chunk. *)
Theorem chunk_longer_than_bound :
  plain_sentences [] false (lit "Aaaa. Bbbb. Cccc.")
    = [lit "Aaaa."; lit "Bbbb."; lit "Cccc."]
  /\ _split_by_sentences plain_tokenizer small_chunker
       (lit "Aaaa. Bbbb. Cccc.")
     = [lit "Aaaa. Bbbb."; lit "Cccc."]
  /\ chunk_texts
       (chunk_document plain_tokenizer small_chunker
          (lit "xyz" ++ PARA_SEP ++ lit "Aaaa. Bbbb. Cccc.") usc_195)
     = Some [lit "xyz"; lit "xyzAaaa. Bbbb."; lit "xyzCccc."]
  /\ len (lit "xyzAaaa. Bbbb.")
     = max_chunk_size small_chunker + overlap_size small_chunker + 1
  /\ chunk_texts
       (chunk_document None no_overlap_chunker
          (lit "abcdef" ++ PARA_SEP ++ lit "ghijkl") usc_195)
     = Some [lit "abcdef"; lit "abcdefghijkl"].
Proof. repeat split; reflexivity. Qed.

(** *** Chunks are never blank, so none is skipped when they are numbered *)

Lemma existsb_rev {A} (f : A -> bool) (l : list A) :
  existsb f (rev l) = existsb f l.
Proof.
  induction l as [|a l IH]; simpl.
  - reflexivity.
  - rewrite existsb_app, IH. simpl. rewrite orb_false_r. apply orb_comm.
Qed.

Lemma Forall_firstn {A} (P : A -> Prop) (n : nat) (l : list A) :
  Forall P l -> Forall P (firstn n l).
Proof.
  intros H. revert n. induction H; intros [|n]; simpl; auto.
Qed.

Lemma Forall_skipn {A} (P : A -> Prop) (n : nat) (l : list A) :
  Forall P l -> Forall P (skipn n l).
Proof.
  intros H. revert n. induction H; intros [|n]; simpl; auto.
Qed.

Lemma Forall_last {A} (P : A -> Prop) (l : list A) (d : A) :
  l <> [] -> Forall P l -> P (last l d).
Proof.
  intros Hne H. induction H as [|a l Ha Hl IH]; [congruence|].
  destruct l as [|b l]; [exact Ha|].
  change (P (last (b :: l) d)). apply IH. discriminate.
Qed.

Lemma nonblank_app (a b : str) :
  nonblank (a ++ b) = nonblank a || nonblank b.
Proof. apply existsb_app. Qed.

Lemma nonblank_app_r (a b : str) :
  nonblank b = true -> nonblank (a ++ b) = true.
Proof. intros H. rewrite nonblank_app, H. apply orb_true_r. Qed.

Lemma nonblank_lstrip (s : str) : nonblank (lstrip s) = nonblank s.
Proof.
  induction s as [|c s IH]; simpl; [reflexivity|].
  destruct (isspace c) eqn:E; simpl.
  - exact IH.
  - now rewrite E.
Qed.

Lemma nonblank_strip (s : str) : nonblank (strip s) = nonblank s.
Proof.
  unfold strip, rstrip, nonblank.
  rewrite existsb_rev. fold (nonblank (lstrip (rev (lstrip s)))).
  rewrite nonblank_lstrip. unfold nonblank. rewrite existsb_rev.
  apply nonblank_lstrip.
Qed.

Lemma lstrip_blank (s : str) : nonblank s = false -> lstrip s = [].
Proof.
  induction s as [|c s IH]; simpl; [reflexivity|].
  destruct (isspace c); simpl; [exact IH|discriminate].
Qed.

Lemma strip_truthy_nonblank (s : str) :
  truthy (strip s) = true -> nonblank (strip s) = true.
Proof.
  intros H. rewrite nonblank_strip.
  destruct (nonblank s) eqn:E; [reflexivity|].
  unfold strip in H. rewrite (lstrip_blank s E) in H. discriminate.
Qed.

Lemma nonblank_truthy (s : str) : nonblank s = true -> truthy s = true.
Proof. destruct s; [discriminate|reflexivity]. Qed.

Lemma terminator_not_space (c : Z) :
  is_terminator c = true -> isspace c = false.
Proof.
  unfold is_terminator. intros H.
  apply orb_true_iff in H. destruct H as [H|H].
  - apply orb_true_iff in H.
    destruct H as [H|H]; apply Z.eqb_eq in H; subst; reflexivity.
  - apply Z.eqb_eq in H. subst. reflexivity.
Qed.

Lemma has_terminator_nonblank (s : str) :
  has_terminator s = true -> nonblank s = true.
Proof.
  unfold has_terminator, nonblank. intros H.
  apply existsb_exists in H. destruct H as [c [Hin Hc]].
  apply existsb_exists. exists c. split; [exact Hin|].
  now rewrite (terminator_not_space c Hc).
Qed.

(** Every match of the sentence pattern ends in a terminator. *)
Lemma findall_sentences_terminated (s acc : str) (in_term : bool) :
  (in_term = true -> has_terminator acc = true) ->
  Forall (fun m => has_terminator m = true) (findall_sentences acc in_term s).
Proof.
  revert acc in_term. induction s as [|c s IH]; intros acc in_term Hacc; simpl.
  - destruct in_term; [|constructor].
    constructor; [|constructor].
    unfold has_terminator. rewrite existsb_rev. now apply Hacc.
  - destruct (is_terminator c) eqn:Ec.
    + apply IH. intros _. unfold has_terminator. simpl. now rewrite Ec.
    + destruct in_term.
      * constructor.
        -- unfold has_terminator. rewrite existsb_rev. now apply Hacc.
        -- apply IH. discriminate.
      * apply IH. discriminate.
Qed.

Lemma group_sentences_nonblank (self : TextChunker) (sentences : list str) :
  all_nonblank sentences ->
  forall chunks current,
    all_nonblank chunks -> buffer_ok current ->
    all_nonblank (group_sentences self sentences chunks current).
Proof.
  unfold all_nonblank.
  induction 1 as [|sent rest Hs _ IH]; intros chunks current Hc Hb; simpl.
  - destruct (truthy current) eqn:Et; [|exact Hc].
    apply Forall_app. split; [exact Hc|].
    constructor; [|constructor].
    destruct Hb as [->|Hb]; [discriminate|exact Hb].
  - destruct (_ <=? _).
    + apply IH; [exact Hc|]. right.
      destruct (truthy current).
      * apply nonblank_app_r. exact (nonblank_app_r SPACE sent Hs).
      * exact Hs.
    + apply IH; [|now right].
      destruct (truthy current) eqn:Et; [|exact Hc].
      apply Forall_app. split; [exact Hc|].
      constructor; [|constructor].
      destruct Hb as [->|Hb]; [discriminate|exact Hb].
Qed.

Lemma group_matches_nonblank (self : TextChunker) (matches : list str) :
  all_nonblank matches ->
  forall chunks current,
    all_nonblank chunks -> buffer_ok current ->
    all_nonblank (group_matches self matches chunks current).
Proof.
  unfold all_nonblank.
  induction 1 as [|m rest Hm _ IH]; intros chunks current Hc Hb; simpl.
  - destruct (truthy current) eqn:Et; [|exact Hc].
    apply Forall_app. split; [exact Hc|].
    constructor; [|constructor]. rewrite nonblank_strip.
    destruct Hb as [->|Hb]; [discriminate|exact Hb].
  - destruct (_ <=? _).
    + apply IH; [exact Hc|]. right. now apply nonblank_app_r.
    + apply IH; [|now right].
      destruct (truthy current) eqn:Et; [|exact Hc].
      apply Forall_app. split; [exact Hc|].
      constructor; [|constructor]. rewrite nonblank_strip.
      destruct Hb as [->|Hb]; [discriminate|exact Hb].
Qed.

Lemma split_by_regex_nonblank (self : TextChunker) (text : str) :
  nonblank text = true -> all_nonblank (split_by_regex self text).
Proof.
  intros Ht. unfold split_by_regex.
  destruct (truthy (findall_sentences [] false text)); simpl.
  - destruct (truthy (group_matches _ _ _ _)) eqn:Eg.
    + apply group_matches_nonblank.
      * eapply Forall_impl; [|apply findall_sentences_terminated].
        -- intros m. apply has_terminator_nonblank.
        -- discriminate.
      * constructor.
      * now left.
    + constructor; [exact Ht|constructor].
  - constructor; [exact Ht|constructor].
Qed.

Lemma _split_by_sentences_nonblank
    (sent_tokenize : tokenizer) (self : TextChunker) (text : str) :
  tokenizer_nonblank sent_tokenize ->
  nonblank text = true ->
  all_nonblank (_split_by_sentences sent_tokenize self text).
Proof.
  intros Htok Ht. unfold _split_by_sentences.
  destruct sent_tokenize as [tokenize|].
  - destruct (tokenize text) as [sentences|] eqn:E.
    + apply group_sentences_nonblank.
      * exact (Htok tokenize text sentences eq_refl E).
      * constructor.
      * now left.
    + now apply split_by_regex_nonblank.
  - now apply split_by_regex_nonblank.
Qed.

Lemma middle_fold_nonblank (self : TextChunker) (para_chunks : list str) :
  all_nonblank para_chunks ->
  forall chunks current overlap_text,
    all_nonblank chunks ->
    all_nonblank
      (fst (fst (fold_left (middle_step self) para_chunks
                   (chunks, current, overlap_text)))).
Proof.
  unfold all_nonblank.
  induction 1 as [|pc rest Hpc _ IH]; intros chunks current ov Hc; simpl.
  - exact Hc.
  - destruct (_ >? _).
    + apply IH. apply Forall_app. split; [exact Hc|].
      constructor; [|constructor]. now apply nonblank_app_r.
    + now apply IH.
Qed.

Lemma paragraph_step_nonblank
    (sent_tokenize : tokenizer) (self : TextChunker)
    (chunks chunks' : list str) (current current' paragraph : str) :
  tokenizer_nonblank sent_tokenize ->
  paragraph_step sent_tokenize self (chunks, current) paragraph
    = Ok (chunks', current') ->
  all_nonblank chunks -> buffer_ok current ->
  all_nonblank chunks' /\ buffer_ok current'.
Proof.
  intros Htok H Hc Hb. unfold paragraph_step in H.
  destruct (truthy (strip paragraph)) eqn:Hp; simpl in H;
    [|inversion H; subst; auto].
  apply strip_truthy_nonblank in Hp.
  destruct (_ <=? _); [inversion H; subst; split; [exact Hc|]|].
  { right. now apply nonblank_app_r. }
  destruct (truthy current) eqn:Et; [|inversion H; subst; auto].
  assert (Hcur : nonblank current = true)
    by (destruct Hb as [->|Hb]; [discriminate|exact Hb]).
  assert (Hflushed : all_nonblank (chunks ++ [current])).
  { apply Forall_app. split; [exact Hc|]. constructor; [exact Hcur|constructor]. }
  destruct (_ >? _).
  - pose proof (_split_by_sentences_nonblank sent_tokenize self
                  (strip paragraph) Htok Hp) as Hpcs.
    destruct (_split_by_sentences sent_tokenize self (strip paragraph))
      as [|first rest] eqn:Epcs; [discriminate|].
    match type of H with
    | context [fold_left ?f ?l (?c0, ?cur0, ?ov0)] =>
        assert (Hl : all_nonblank l)
          by (unfold slice; apply Forall_firstn, Forall_skipn; exact Hpcs);
        pose proof (middle_fold_nonblank self l Hl c0 cur0 ov0) as Hfold;
        destruct (fold_left f l (c0, cur0, ov0)) as [[c2 cur2] ov2] eqn:Ef
    end.
    injection H as <- <-. split.
    + change c2 with (fst (fst (c2, cur2, ov2))). rewrite <- Ef.
      apply Hfold. apply Forall_app. split; [exact Hflushed|].
      constructor; [|constructor]. apply nonblank_app_r.
      now inversion Hpcs.
    + right.
      assert (Hlast : nonblank (last (first :: rest) []) = true)
        by (apply (Forall_last (fun s => nonblank s = true));
            [discriminate|exact Hpcs]).
      destruct (_ >? _); [now apply nonblank_app_r|exact Hlast].
  - inversion H; subst. split; [exact Hflushed|].
    right. now apply nonblank_app_r.
Qed.

Lemma paragraph_loop_nonblank
    (sent_tokenize : tokenizer) (self : TextChunker)
    (paragraphs : list str) :
  tokenizer_nonblank sent_tokenize ->
  forall chunks current chunks' current',
    paragraph_loop sent_tokenize self paragraphs (chunks, current)
      = Ok (chunks', current') ->
    all_nonblank chunks -> buffer_ok current ->
    all_nonblank chunks' /\ buffer_ok current'.
Proof.
  intros Htok.
  induction paragraphs as [|p rest IH];
    intros chunks current chunks' current' H Hc Hb;
    cbn [paragraph_loop] in H.
  - inversion H; subst. auto.
  - destruct (paragraph_step sent_tokenize self (chunks, current) p)
      as [[c1 cur1]|e] eqn:E; [|discriminate].
    destruct (paragraph_step_nonblank _ _ _ _ _ _ _ Htok E Hc Hb) as [Hc1 Hb1].
    exact (IH _ _ _ _ H Hc1 Hb1).
Qed.

Lemma raw_chunks_nonblank
    (sent_tokenize : tokenizer) (self : TextChunker) (text : str)
    (chunks : list str) :
  tokenizer_nonblank sent_tokenize ->
  raw_chunks sent_tokenize self text = Ok chunks ->
  all_nonblank chunks.
Proof.
  intros Htok H. unfold raw_chunks in H.
  destruct (paragraph_loop _ _ _ _) as [[c cur]|e] eqn:E; [|discriminate].
  destruct (paragraph_loop_nonblank _ _ _ Htok _ _ _ _ E) as [Hc Hb].
  - constructor.
  - now left.
  - inversion H; subst.
    destruct (truthy cur) eqn:Et; [|exact Hc].
    apply Forall_app. split; [exact Hc|].
    constructor; [|constructor].
    destruct Hb as [->|Hb]; [discriminate|exact Hb].
Qed.

(** Numbering a list of non-blank texts skips nothing. *)
Lemma chunk_objects_numbered (md : Metadata) (total : Z) (chunks : list str) :
  all_nonblank chunks ->
  forall idx,
    List.length (chunk_objects md total idx chunks) = List.length chunks
    /\ chunk_indices (chunk_objects md total idx chunks)
       = map (fun k => idx + Z.of_nat k) (seq 0 (List.length chunks))
    /\ Forall (fun c => total_chunks (metadata c) = total)
         (chunk_objects md total idx chunks).
Proof.
  induction 1 as [|s rest Hs _ IH]; intros idx; simpl.
  - auto.
  - rewrite <- nonblank_strip in Hs. apply nonblank_truthy in Hs.
    rewrite Hs. simpl.
    destruct (IH (idx + 1)) as [IH1 [IH2 IH3]].
    split; [now rewrite IH1|]. split.
    + f_equal; [lia|].
      fold (chunk_indices (chunk_objects md total (idx + 1) rest)).
      rewrite IH2, <- seq_shift, map_map.
      apply map_ext. intros k. lia.
    + constructor; [reflexivity|exact IH3].
Qed.

(** C5.  Whenever chunking a document returns chunks, each carries
    [total_chunks] equal to the number of chunks returned, and the
    [chunk_index] values are 0, 1, ..., N-1 in that order; so
    [chunk_index < total_chunks] throughout.  The NLTK tokenizer is taken to
    return sentences with visible text. *)
Theorem chunk_numbering
    (sent_tokenize : tokenizer) (self : TextChunker) (text : str)
    (md : Metadata) (out : list Chunk) :
  tokenizer_nonblank sent_tokenize ->
  chunk_document sent_tokenize self text md = Ok out ->
  Forall (fun c => total_chunks (metadata c) = len out) out
  /\ chunk_indices out = map Z.of_nat (seq 0 (List.length out))
  /\ Forall (fun c => 0 <= chunk_index (metadata c) < total_chunks (metadata c))
       out.
Proof.
  intros Htok H.
  assert (Core :
    Forall (fun c => total_chunks (metadata c) = len out) out
    /\ chunk_indices out = map Z.of_nat (seq 0 (List.length out))).
  { unfold chunk_document in H.
    destruct (truthy (_clean_text text)); simpl in H;
      [|inversion H; subst; split; [constructor|reflexivity]].
    destruct (_ <=? _).
    - inversion H; subst. split; [|reflexivity].
      constructor; [reflexivity|constructor].
    - unfold _split_into_chunks in H.
      destruct (raw_chunks sent_tokenize self (_clean_text text))
        as [chunks|e] eqn:E; [|discriminate].
      inversion H; subst. clear H.
      pose proof (raw_chunks_nonblank _ _ _ _ Htok E) as Hnb.
      destruct (chunk_objects_numbered md (len chunks) chunks Hnb 0)
        as [L [I T]].
      assert (Elen : len (chunk_objects md (len chunks) 0 chunks) = len chunks)
        by exact (f_equal Z.of_nat L).
      rewrite Elen.
      split; [exact T|]. rewrite I, L.
      apply map_ext. intros k. lia. }
  destruct Core as [T I]. split; [exact T|]. split; [exact I|].
  apply Forall_forall. intros c Hc.
  rewrite Forall_forall in T. rewrite (T c Hc).
  assert (Hi : In (chunk_index (metadata c)) (chunk_indices out))
    by (unfold chunk_indices; apply in_map_iff; eauto).
  rewrite I in Hi. apply in_map_iff in Hi. destruct Hi as [k [Hk Hin]].
  apply in_seq in Hin. unfold len. lia.
Qed.

Lemma nonblank_rev (s : str) : nonblank (rev s) = nonblank s.
Proof. apply existsb_rev. Qed.

Lemma nonblank_cons (c : Z) (s : str) :
  nonblank (c :: s) = negb (isspace c) || nonblank s.
Proof. reflexivity. Qed.

Lemma plain_sentences_nonblank (s : str) :
  forall acc in_term,
    buffer_ok acc ->
    (in_term = true -> nonblank acc = true) ->
    all_nonblank (plain_sentences acc in_term s).
Proof.
  induction s as [|c s IH]; intros acc in_term Hacc Hterm; simpl.
  - destruct (truthy acc) eqn:Et; constructor; [|constructor].
    rewrite nonblank_rev.
    destruct Hacc as [->|Hacc]; [discriminate|exact Hacc].
  - destruct (is_terminator c) eqn:Ec.
    + assert (Hn : nonblank (c :: acc) = true)
        by (rewrite nonblank_cons, (terminator_not_space c Ec); reflexivity).
      apply IH; [now right|intros _; exact Hn].
    + destruct (in_term && isspace c) eqn:E1.
      * apply andb_true_iff in E1. destruct E1 as [E1 _].
        constructor.
        -- rewrite nonblank_rev. now apply Hterm.
        -- apply IH; [now left|discriminate].
      * destruct (isspace c && negb (truthy acc)) eqn:E2.
        -- apply IH; [exact Hacc|discriminate].
        -- apply IH; [|discriminate]. right. rewrite nonblank_cons.
           destruct (isspace c); [|reflexivity]. simpl in E2 |- *.
           apply negb_false_iff in E2.
           destruct Hacc as [->|Hacc]; [discriminate|exact Hacc].
Qed.

Lemma plain_tokenizer_nonblank : tokenizer_nonblank plain_tokenizer.
Proof.
  intros f text ss Hf Hss. injection Hf as <-. injection Hss as <-.
  apply plain_sentences_nonblank; [now left|discriminate].
Qed.

Lemma chunk_numbering_witness :
  let text := lit "xyz" ++ PARA_SEP ++ lit "Aaaa. Bbbb. Cccc." in
  let out :=
    match chunk_document plain_tokenizer small_chunker text usc_195 with
    | Ok chunks => chunks
    | Raise _ => []
    end in
  chunk_document plain_tokenizer small_chunker text usc_195 = Ok out
  /\ Forall (fun c => total_chunks (metadata c) = len out) out
  /\ chunk_indices out = map Z.of_nat (seq 0 (List.length out))
  /\ Forall (fun c => 0 <= chunk_index (metadata c) < total_chunks (metadata c))
       out.
Proof.
  intros text out. split; [reflexivity|].
  apply (chunk_numbering plain_tokenizer small_chunker text usc_195 out).
  - exact plain_tokenizer_nonblank.
  - reflexivity.
Defined.

(** *** The regex branch keeps chunks within [max_chunk_size + overlap_size] *)

Lemma length_lstrip (s : str) : (List.length (lstrip s) <= List.length s)%nat.
Proof.
  induction s as [|c s IH]; simpl; [lia|].
  destruct (isspace c); simpl; lia.
Qed.

Lemma len_strip (s : str) : len (strip s) <= len s.
Proof.
  unfold strip, rstrip, len. rewrite length_rev.
  pose proof (length_lstrip (rev (lstrip s))) as H1.
  rewrite length_rev in H1.
  pose proof (length_lstrip s) as H2. lia.
Qed.

Lemma len_overlap_seed (self : TextChunker) (s : str) :
  0 < overlap_size self ->
  len (_get_overlap_at_word_boundary self
         (slice_from (- overlap_size self) s)) <= overlap_size self.
Proof.
  intros Hov.
  change (len (overlap_seed self s) <= overlap_size self).
  rewrite overlap_seed_is_window by exact Hov.
  now apply len_slice_from_neg.
Qed.

Lemma group_matches_within (self : TextChunker) (matches : list str) :
  all_within (max_chunk_size self) matches ->
  forall chunks current,
    all_within (max_chunk_size self) chunks ->
    current = [] \/ len current <= max_chunk_size self ->
    all_within (max_chunk_size self)
      (group_matches self matches chunks current).
Proof.
  unfold all_within.
  assert (Flush : forall chunks current,
    Forall (fun s => len s <= max_chunk_size self) chunks ->
    current = [] \/ len current <= max_chunk_size self ->
    Forall (fun s => len s <= max_chunk_size self)
      (if truthy current then chunks ++ [strip current] else chunks)).
  { intros chunks current Hc Hcur.
    destruct (truthy current) eqn:Et; [|exact Hc].
    apply Forall_app. split; [exact Hc|]. constructor; [|constructor].
    destruct Hcur as [->|Hcur]; [discriminate|].
    pose proof (len_strip current). lia. }
  induction 1 as [|m rest Hm _ IH]; intros chunks current Hc Hcur; simpl.
  - now apply Flush.
  - destruct (_ <=? _) eqn:E.
    + apply IH; [exact Hc|]. right. apply Z.leb_le in E.
      rewrite len_app. exact E.
    + apply IH; [now apply Flush|now right].
Qed.

Lemma group_matches_not_empty (self : TextChunker) (matches : list str) :
  Forall (fun m => m <> []) matches ->
  forall chunks current,
    chunks <> [] \/ current <> [] \/ matches <> [] ->
    group_matches self matches chunks current <> [].
Proof.
  induction 1 as [|m rest Hm _ IH]; intros chunks current H; simpl.
  - destruct current as [|c current]; simpl.
    + destruct H as [H|[H|H]]; [exact H|now elim H|now elim H].
    + intros E. destruct chunks; discriminate.
  - destruct (_ <=? _); apply IH; right; left.
    + destruct current; [exact Hm|discriminate].
    + exact Hm.
Qed.

Lemma split_by_regex_within (self : TextChunker) (text : str) :
  findall_sentences [] false text <> [] ->
  all_within (max_chunk_size self) (findall_sentences [] false text) ->
  all_within (max_chunk_size self) (split_by_regex self text).
Proof.
  intros Hne Hfit. unfold split_by_regex.
  apply truthy_true_cons in Hne. rewrite Hne. simpl.
  assert (G : group_matches self (findall_sentences [] false text) [] []
              <> []).
  { apply group_matches_not_empty.
    - eapply Forall_impl; [|apply (findall_sentences_terminated text [] false)].
      + intros m Hm ->. discriminate.
      + discriminate.
    - right. right. now apply truthy_true_cons. }
  apply truthy_true_cons in G. rewrite G.
  apply group_matches_within; [exact Hfit|constructor|now left].
Qed.

Lemma middle_fold_within (self : TextChunker) (para_chunks : list str) :
  0 < overlap_size self ->
  all_within (max_chunk_size self) para_chunks ->
  forall chunks current overlap_text,
    all_within (max_chunk_size self + overlap_size self) chunks ->
    len overlap_text <= overlap_size self ->
    let final :=
      fold_left (middle_step self) para_chunks
        (chunks, current, overlap_text) in
    all_within (max_chunk_size self + overlap_size self) (fst (fst final))
    /\ len (snd final) <= overlap_size self.
Proof.
  intros Hov. unfold all_within.
  induction 1 as [|pc rest Hpc _ IH]; intros chunks current ov Hc Ho; simpl.
  - auto.
  - destruct (_ >? _).
    + apply IH; [|now apply len_overlap_seed].
      apply Forall_app. split; [exact Hc|]. constructor; [|constructor].
      rewrite len_app. lia.
    + now apply IH.
Qed.

Lemma paragraph_step_within (self : TextChunker)
    (chunks chunks' : list str) (current current' paragraph : str) :
  0 < overlap_size self ->
  (max_chunk_size self < len (strip paragraph) ->
   findall_sentences [] false (strip paragraph) <> []
   /\ all_within (max_chunk_size self)
        (findall_sentences [] false (strip paragraph))) ->
  paragraph_step None self (chunks, current) paragraph
    = Ok (chunks', current') ->
  all_within (max_chunk_size self + overlap_size self) chunks ->
  len current <= max_chunk_size self + overlap_size self ->
  all_within (max_chunk_size self + overlap_size self) chunks'
  /\ len current' <= max_chunk_size self + overlap_size self.
Proof.
  intros Hov Hfit H Hc Hcur. unfold paragraph_step in H.
  destruct (truthy (strip paragraph)); simpl in H;
    [|inversion H; subst; auto].
  destruct (_ <=? _) eqn:E1.
  { apply Z.leb_le in E1. inversion H; subst. split; [exact Hc|].
    destruct (truthy current); rewrite ?len_app; [|lia].
    change (len PARA_SEP) with 2. lia. }
  destruct (truthy current) eqn:Et; [|inversion H; subst; auto].
  assert (Hflushed :
    all_within (max_chunk_size self + overlap_size self) (chunks ++ [current])).
  { apply Forall_app. split; [exact Hc|]. constructor; [exact Hcur|constructor]. }
  pose proof (len_overlap_seed self current Hov) as Hseed.
  destruct (_ >? _) eqn:E2.
  - rewrite Z.gtb_ltb in E2. apply Z.ltb_lt in E2.
    destruct (Hfit E2) as [Hne Hall].
    pose proof (split_by_regex_within self (strip paragraph) Hne Hall)
      as Hpcs.
    change (_split_by_sentences None self (strip paragraph))
      with (split_by_regex self (strip paragraph)) in H.
    destruct (split_by_regex self (strip paragraph)) as [|first rest];
      [discriminate|].
    assert (Hfirst : len first <= max_chunk_size self)
      by (now inversion Hpcs).
    assert (Hlast : len (last (first :: rest) []) <= max_chunk_size self)
      by (apply (Forall_last (fun s => len s <= max_chunk_size self));
          [discriminate|exact Hpcs]).
    match type of H with
    | context [fold_left ?f ?l (?c0, ?cur0, ?ov0)] =>
        assert (Hl : all_within (max_chunk_size self) l)
          by (unfold slice; apply Forall_firstn, Forall_skipn; exact Hpcs);
        pose proof (middle_fold_within self l Hov Hl c0 cur0 ov0) as Hfold;
        destruct (fold_left f l (c0, cur0, ov0)) as [[c2 cur2] ov2] eqn:Ef
    end.
    assert (Hboth :
      all_within (max_chunk_size self + overlap_size self) c2
      /\ len ov2 <= overlap_size self).
    { change (all_within (max_chunk_size self + overlap_size self)
                (fst (fst (c2, cur2, ov2)))
              /\ len (snd (c2, cur2, ov2)) <= overlap_size self).
      rewrite <- Ef. apply Hfold; [|exact Hseed].
      apply Forall_app. split; [exact Hflushed|].
      constructor; [|constructor]. rewrite len_app. lia. }
    destruct Hboth as [Hc2 Hov2].
    injection H as <- <-. split; [exact Hc2|].
    simpl in Hlast.
    destruct (_ >? _); rewrite ?len_app; lia.
  - rewrite Z.gtb_ltb in E2. apply Z.ltb_ge in E2.
    inversion H; subst. split; [exact Hflushed|].
    rewrite len_app. lia.
Qed.

Lemma paragraph_loop_within (self : TextChunker) (paragraphs : list str) :
  0 < overlap_size self ->
  (forall p, In p paragraphs ->
     max_chunk_size self < len (strip p) ->
     findall_sentences [] false (strip p) <> []
     /\ all_within (max_chunk_size self)
          (findall_sentences [] false (strip p))) ->
  forall chunks current chunks' current',
    paragraph_loop None self paragraphs (chunks, current)
      = Ok (chunks', current') ->
    all_within (max_chunk_size self + overlap_size self) chunks ->
    len current <= max_chunk_size self + overlap_size self ->
    all_within (max_chunk_size self + overlap_size self) chunks'
    /\ len current' <= max_chunk_size self + overlap_size self.
Proof.
  intros Hov.
  induction paragraphs as [|p rest IH];
    intros Hfit chunks current chunks' current' H Hc Hcur;
    cbn [paragraph_loop] in H.
  - inversion H; subst. auto.
  - destruct (paragraph_step None self (chunks, current) p)
      as [[c1 cur1]|e] eqn:E; [|discriminate].
    destruct (paragraph_step_within self _ _ _ _ _ Hov
                (Hfit p (or_introl eq_refl)) E Hc Hcur) as [Hc1 Hcur1].
    apply (IH (fun q Hq => Hfit q (or_intror Hq)) _ _ _ _ H Hc1 Hcur1).
Qed.

Lemma chunk_objects_within (md : Metadata) (bound total : Z)
    (chunks : list str) :
  all_within bound chunks ->
  forall idx,
    Forall (fun c => len (Models.text c) <= bound)
      (chunk_objects md total idx chunks).
Proof.
  induction 1 as [|s rest Hs _ IH]; intros idx; simpl.
  - constructor.
  - destruct (negb _); [apply IH|].
    constructor; [|apply IH].
    simpl. pose proof (len_strip s). lia.
Qed.

(** X14.  Without NLTK, with a positive overlap and sentences that fit, no chunk
    is longer than [max_chunk_size + overlap_size]: the regex branch joins
    its matches without a separator.  This is the bound that the NLTK branch
    misses by the joining space. *)
Lemma regex_branch_within_bound
    (self : TextChunker) (text : str) (md : Metadata) (out : list Chunk) :
  0 <= max_chunk_size self ->
  0 < overlap_size self ->
  regex_sentences_fit self (_clean_text text) ->
  chunk_document None self text md = Ok out ->
  Forall (fun c =>
            len (Models.text c) <= max_chunk_size self + overlap_size self)
    out.
Proof.
  intros Hmax Hov Hfit H. unfold chunk_document in H.
  destruct (truthy (_clean_text text)); simpl in H;
    [|inversion H; constructor].
  destruct (_ <=? _) eqn:E.
  - apply Z.leb_le in E. inversion H; subst.
    constructor; [simpl; lia|constructor].
  - unfold _split_into_chunks, raw_chunks in H.
    destruct (paragraph_loop None self _ _) as [[chunks current]|e] eqn:L;
      [|discriminate].
    inversion H; subst. clear H.
    assert (Hnil : all_within (max_chunk_size self + overlap_size self) [])
      by constructor.
    assert (Hnil' : len (@nil Z) <= max_chunk_size self + overlap_size self).
    { change (len (@nil Z)) with 0. lia. }
    destruct (paragraph_loop_within self _ Hov Hfit _ _ _ _ L Hnil Hnil')
      as [Hc Hcur].
    apply chunk_objects_within.
    destruct (truthy current); [|exact Hc].
    apply Forall_app. split; [exact Hc|]. constructor; [exact Hcur|constructor].
Qed.

Lemma regex_branch_within_bound_witness :
  let text := lit "xyz" ++ PARA_SEP ++ lit "Aaaa. Bbbb. Cccc." in
  let out :=
    match chunk_document None small_chunker text usc_195 with
    | Ok chunks => chunks
    | Raise _ => []
    end in
  Forall (fun c => len (Models.text c) <= 13) out.
Proof.
  intros text out.
  apply (regex_branch_within_bound small_chunker text usc_195 out).
  - discriminate.
  - reflexivity.
  - intros p Hin Hlong.
    destruct Hin as [<-|[<-|[]]].
    + vm_compute in Hlong. discriminate.
    + split; [discriminate|].
      repeat constructor; vm_compute; discriminate.
  - reflexivity.
Defined.

End ChunkerFacts.


(** ** Batching *)

Module BatchFacts.
Import Models Embeddings Props.

Lemma sum_from (l : list Z) (a : Z) : fold_left Z.add l a = a + sum l.
Proof.
  unfold sum. revert a. induction l as [|x l IH]; intros a; simpl.
  - lia.
  - rewrite (IH (a + x)), (IH x). lia.
Qed.

Lemma sum_snoc (l : list Z) (x : Z) : sum (l ++ [x]) = sum l + x.
Proof. unfold sum. rewrite fold_left_app. reflexivity. Qed.

Lemma len_snoc {A} (l : list A) (x : A) : len (l ++ [x]) = len l + 1.
Proof. unfold len. rewrite length_app. simpl. lia. Qed.

Lemma truthy_len {A} (l : list A) : truthy l = (0 <? len l).
Proof. destruct l; reflexivity. Qed.

Lemma batch_chunks_created (encoding : token_encoding) (cs : list Chunk) :
  batch_chunks (_create_embedded_chunk_batch encoding cs) = cs.
Proof.
  unfold batch_chunks, _create_embedded_chunk_batch. simpl.
  rewrite map_map. simpl. apply map_id.
Qed.

(** One iteration, with the truncation folded into [prepare]. *)
Lemma batch_step_eq (encoding : token_encoding) (self : EmbeddingsService)
    (batches : list IngestionBatch) (current : list Chunk)
    (current_tokens : Z) (c : Chunk) :
  batch_step encoding self (batches, current, current_tokens) c =
  let c' := prepare encoding c in
  let t := chunk_tokens encoding c' in
  if ((len current >=? batch_size self)
      || (current_tokens + t >? max_tokens_per_batch self))
     && truthy current
  then (batches ++ [_create_embedded_chunk_batch encoding current],
        [c'], 0 + t)
  else (batches, current ++ [c'], current_tokens + t).
Proof.
  unfold batch_step, prepare, chunk_tokens.
  destruct (count_tokens encoding (text c) >? 3000); simpl;
    destruct (_ && _); reflexivity.
Qed.

Lemma created_within_limits (encoding : token_encoding)
    (self : EmbeddingsService) (current : list Chunk) :
  current <> [] ->
  len current <= batch_size self ->
  (sum (map (chunk_tokens encoding) current) <= max_tokens_per_batch self
   \/ exists c, current = [c]
                /\ max_tokens_per_batch self < chunk_tokens encoding c) ->
  within_limits encoding self (_create_embedded_chunk_batch encoding current).
Proof.
  intros Hne Hlen Htok. unfold within_limits.
  rewrite batch_chunks_created.
  repeat split; try assumption; try reflexivity.
Qed.

Lemma batch_step_invariant (encoding : token_encoding)
    (self : EmbeddingsService) (done : list Chunk)
    (st : list IngestionBatch * list Chunk * Z) (c : Chunk) :
  1 <= batch_size self ->
  batching_invariant encoding self done st ->
  batching_invariant encoding self (done ++ [c])
    (batch_step encoding self st c).
Proof.
  intros Hbs. destruct st as [[batches current] current_tokens].
  intros (Hb & Hcat & Htok & Hcur).
  rewrite batch_step_eq. cbv zeta.
  set (c' := prepare encoding c). set (t := chunk_tokens encoding c').
  destruct ((len current >=? batch_size self)
            || (current_tokens + t >? max_tokens_per_batch self)) eqn:Efull;
    simpl andb.
  - destruct (truthy current) eqn:Et.
    + (* flush, then start a batch with [c'] *)
      assert (Hne : current <> [])
        by (apply ChunkerFacts.truthy_true_cons; exact Et).
      destruct Hcur as [->|[Hlen Hbudget]]; [congruence|].
      unfold batching_invariant. split; [|split; [|split]].
      * apply Forall_app. split; [exact Hb|].
        constructor; [|constructor].
        apply created_within_limits; [exact Hne|exact Hlen|].
        rewrite <- Htok. exact Hbudget.
      * rewrite map_app, concat_app. simpl.
        rewrite batch_chunks_created, app_nil_r, map_app, <- Hcat.
        reflexivity.
      * unfold sum. simpl. reflexivity.
      * right. split; [unfold len; simpl; lia|].
        destruct (Z_le_gt_dec (0 + t) (max_tokens_per_batch self)) as [L|G].
        -- now left.
        -- right. exists c'. split; [reflexivity|]. fold t. lia.
    + (* the buffer is empty: [c'] opens it *)
      apply ChunkerFacts.truthy_false_nil in Et. subst current.
      change (sum (map (chunk_tokens encoding) [])) with 0 in Htok.
      subst current_tokens.
      unfold batching_invariant. split; [|split; [|split]].
      * exact Hb.
      * rewrite map_app, <- Hcat. now rewrite !app_nil_r.
      * unfold sum. simpl. reflexivity.
      * right. split; [unfold len; simpl; lia|].
        destruct (Z_le_gt_dec (0 + t) (max_tokens_per_batch self)) as [L|G].
        -- now left.
        -- right. exists c'. split; [reflexivity|]. fold t. lia.
  - (* room for [c'] in the current batch *)
    apply orb_false_iff in Efull. destruct Efull as [E1 E2].
    rewrite Z.geb_leb in E1. apply Z.leb_gt in E1.
    rewrite Z.gtb_ltb in E2. apply Z.ltb_ge in E2.
    unfold batching_invariant. split; [|split; [|split]].
    + exact Hb.
    + rewrite map_app, <- Hcat. now rewrite <- app_assoc.
    + rewrite map_app.
      change (map (chunk_tokens encoding) [c'])
        with [chunk_tokens encoding c'].
      rewrite sum_snoc, <- Htok. reflexivity.
    + right. rewrite len_snoc. split; [lia|]. now left.
Qed.

Lemma fold_batch_step_invariant (encoding : token_encoding)
    (self : EmbeddingsService) (chunks : list Chunk) :
  1 <= batch_size self ->
  forall done st,
    batching_invariant encoding self done st ->
    batching_invariant encoding self (done ++ chunks)
      (fold_left (batch_step encoding self) chunks st).
Proof.
  intros Hbs. induction chunks as [|c chunks IH]; intros done st Hst; simpl.
  - now rewrite app_nil_r.
  - replace (done ++ c :: chunks) with ((done ++ [c]) ++ chunks)
      by (now rewrite <- app_assoc).
    apply IH. now apply batch_step_invariant.
Qed.

(** The loop seen on sizes only. *)
Lemma sizes_of_batch_step (encoding : token_encoding)
    (self : EmbeddingsService)
    (st : list IngestionBatch * list Chunk * Z) (c : Chunk) :
  sizes_of (batch_step encoding self st c)
  = size_step self (sizes_of st) (chunk_tokens encoding (prepare encoding c)).
Proof.
  destruct st as [[batches current] current_tokens].
  rewrite batch_step_eq. cbv zeta. unfold sizes_of, size_step.
  rewrite truthy_len.
  destruct (_ && _).
  - rewrite map_app. reflexivity.
  - now rewrite len_snoc.
Qed.

Lemma sizes_of_fold (encoding : token_encoding) (self : EmbeddingsService)
    (chunks : list Chunk) :
  forall st,
    sizes_of (fold_left (batch_step encoding self) chunks st)
    = fold_left (size_step self)
        (map (fun c => chunk_tokens encoding (prepare encoding c)) chunks)
        (sizes_of st).
Proof.
  induction chunks as [|c chunks IH]; intros st; simpl.
  - reflexivity.
  - rewrite IH, sizes_of_batch_step. reflexivity.
Qed.

Lemma sizes_of_create_batches (encoding : token_encoding)
    (self : EmbeddingsService) (chunks : list Chunk) :
  map Models.batch_size (_create_batches encoding self chunks)
  = final_sizes
      (fold_left (size_step self)
         (map (fun c => chunk_tokens encoding (prepare encoding c)) chunks)
         ([], 0, 0)).
Proof.
  unfold _create_batches.
  pose proof (sizes_of_fold encoding self chunks ([], [], 0)) as H.
  destruct (fold_left (batch_step encoding self) chunks ([], [], 0))
    as [[batches current] current_tokens].
  change (sizes_of ([], [], 0)) with (@nil Z, 0, 0) in H.
  rewrite <- H. unfold sizes_of, final_sizes.
  rewrite truthy_len. destruct (0 <? len current).
  - rewrite map_app. reflexivity.
  - reflexivity.
Qed.

Lemma uniform_tokens (encoding : token_encoding) (t : Z)
    (chunks : list Chunk) :
  t <= 3000 ->
  Forall (fun c => chunk_tokens encoding c = t) chunks ->
  map (fun c => chunk_tokens encoding (prepare encoding c)) chunks
  = repeat t (List.length chunks).
Proof.
  intros Ht. induction 1 as [|c chunks Hc _ IH]; simpl.
  - reflexivity.
  - rewrite IH. f_equal. unfold prepare. rewrite Hc.
    replace (t >? 3000) with false
      by (symmetry; rewrite Z.gtb_ltb; apply Z.ltb_ge; lia).
    exact Hc.
Qed.

(** C3.  With a batch limit of at least one chunk, every batch that
    [_create_batches] emits is non-empty, holds at most [batch_size] chunks,
    and stays within [max_tokens_per_batch] unless it is a single chunk whose
    own token count exceeds that budget; the batches, read in order, are
    exactly the input chunks in input order (each as stored, that is, after
    the truncation step).  In particular 45 chunks of 50 tokens each, with
    the limits 40 and 3500, give two batches of sizes 40 and 5. *)
Theorem create_batches_bounded_and_ordered
    (encoding : token_encoding) (self : EmbeddingsService)
    (chunks : list Chunk) :
  1 <= batch_size self ->
  Forall (within_limits encoding self) (_create_batches encoding self chunks)
  /\ concat (map batch_chunks (_create_batches encoding self chunks))
     = map (prepare encoding) chunks
  /\ (forall cs : list Chunk,
         List.length cs = 45%nat ->
         Forall (fun c => chunk_tokens encoding c = 50) cs ->
         map Models.batch_size (_create_batches encoding default_service cs)
           = [40; 5]
         /\ concat (map batch_chunks
                      (_create_batches encoding default_service cs)) = cs).
Proof.
  intros Hbs.
  assert (Main : forall svc cs,
    1 <= batch_size svc ->
    Forall (within_limits encoding svc) (_create_batches encoding svc cs)
    /\ concat (map batch_chunks (_create_batches encoding svc cs))
       = map (prepare encoding) cs).
  { intros svc cs Hsvc. unfold _create_batches.
    pose proof (fold_batch_step_invariant encoding svc cs Hsvc []
                  ([], [], 0)) as Inv.
    destruct (fold_left (batch_step encoding svc) cs ([], [], 0))
      as [[batches current] current_tokens].
    destruct Inv as (Hb & Hcat & Htok & Hcur).
    { unfold batching_invariant. repeat split; auto. }
    simpl app in Hcat.
    destruct (truthy current) eqn:Et.
    - assert (Hne : current <> [])
        by (apply ChunkerFacts.truthy_true_cons; exact Et).
      destruct Hcur as [->|[Hlen Hbudget]]; [congruence|]. split.
      + apply Forall_app. split; [exact Hb|].
        constructor; [|constructor].
        apply created_within_limits; [exact Hne|exact Hlen|].
        rewrite <- Htok. exact Hbudget.
      + rewrite map_app, concat_app. simpl.
        now rewrite batch_chunks_created, app_nil_r.
    - apply ChunkerFacts.truthy_false_nil in Et. subst current.
      rewrite app_nil_r in Hcat. now split. }
  destruct (Main self chunks Hbs) as [M1 M2].
  split; [exact M1|]. split; [exact M2|].
  intros cs Hlen Htok. split.
  - rewrite sizes_of_create_batches.
    rewrite (uniform_tokens encoding 50 cs) by (lia || exact Htok).
    rewrite Hlen. reflexivity.
  - destruct (Main default_service cs) as [_ M]; [simpl; lia|].
    rewrite M. clear - Htok.
    induction Htok as [|c cs Hc _ IH]; simpl; [reflexivity|].
    rewrite IH. f_equal. unfold prepare. now rewrite Hc.
Qed.

Lemma create_batches_bounded_and_ordered_witness :
  let chunks := [example_chunk (lit "Aaaa."); example_chunk (lit "Bbbb.")] in
  Forall (within_limits None default_service)
    (_create_batches None default_service chunks)
  /\ concat (map batch_chunks (_create_batches None default_service chunks))
     = chunks
  /\ map Models.batch_size
       (_create_batches None default_service (repeat fifty_token_chunk 45))
     = [40; 5].
Proof.
  intros chunks.
  destruct (create_batches_bounded_and_ordered None default_service chunks)
    as (Hlim & Hcat & Hex).
  - vm_compute. discriminate.
  - split; [exact Hlim|]. split; [exact Hcat|].
    apply (Hex (repeat fifty_token_chunk 45)).
    + reflexivity.
    + apply Forall_forall. intros c Hc.
      apply repeat_spec in Hc. subst c. reflexivity.
Defined.

End BatchFacts.

(** ** The embedding run: dimension check and rate-limit retry *)

Module EmbedFacts.
Import Models Embeddings Props.

(** [map_embeddings] fails only with [IndexError] or [ValueError]. *)
Lemma map_embeddings_raises (self : EmbeddingsService)
    (data : list (list float)) (objs : list EmbeddedChunk) :
  forall idx e,
    map_embeddings self data idx objs = Raise e ->
    e = IndexError \/ e = ValueError.
Proof.
  induction objs as [|o objs IH]; intros idx e H; simpl in H.
  - discriminate.
  - destruct (nth_error data idx); [|inversion H; auto].
    destruct (negb _); [inversion H; auto|].
    destruct (map_embeddings self data (S idx) objs) eqn:E;
      [discriminate|].
    inversion H; subst. exact (IH _ _ E).
Qed.

(** A vector of the wrong length among the positions that are read makes
    [map_embeddings] raise [ValueError]. *)
Lemma map_embeddings_mismatch (self : EmbeddingsService)
    (data : list (list float)) (objs : list EmbeddedChunk) :
  forall idx j v,
    (j < List.length objs)%nat ->
    nth_error data (idx + j) = Some v ->
    len v <> embedding_dimension self ->
    map_embeddings self data idx objs = Raise ValueError.
Proof.
  induction objs as [|o objs IH]; intros idx j v Hj Hv Hlen; simpl in Hj.
  - lia.
  - cbn [map_embeddings]. destruct j as [|j].
    + rewrite Nat.add_0_r in Hv. rewrite Hv.
      apply Z.eqb_neq in Hlen. now rewrite Hlen.
    + destruct (nth_error data idx) as [v0|] eqn:E0.
      * destruct (negb _); [reflexivity|].
        rewrite (IH (S idx) j v); [reflexivity|lia| |exact Hlen].
        now rewrite <- Hv, Nat.add_succ_r.
      * apply nth_error_None in E0.
        assert (idx + S j < List.length data)%nat
          by (apply nth_error_Some; congruence).
        lia.
Qed.

(** One request: the provider's answer decides the outcome, and the request
    is recorded. *)
Lemma _embed_batch_run (client : provider) (self : EmbeddingsService)
    (batch : IngestionBatch) (w : world) :
  _embed_batch client self batch w =
  let r := client (requests w) (model self) (request_texts batch) in
  (match r with
   | Data vectors => map_embeddings self vectors 0 (embedded_chunks batch)
   | Fails e => Raise e
   end,
   extend w 1 [Request (model self) (request_texts batch) r]).
Proof.
  unfold _embed_batch, bind, embeddings_create, lift, extend, request_texts.
  cbv zeta. destruct (client _ _ _); reflexivity.
Qed.

(** The [try]/[except]: a second request is made exactly when the first one
    was answered with a rate-limit error, and then after a sleep of five
    seconds. *)
Lemma embed_with_retry_run (client : provider) (self : EmbeddingsService)
    (batch : IngestionBatch) (w : world) :
  embed_with_retry client self batch w =
  let first := client (requests w) (model self) (request_texts batch) in
  match first with
  | Fails RateLimitError =>
      _embed_batch client self batch
        (extend w 1
           [Request (model self) (request_texts batch) first; Sleep 5000])
  | _ => _embed_batch client self batch w
  end.
Proof.
  unfold embed_with_retry, except_rate_limit.
  rewrite _embed_batch_run. cbv zeta.
  destruct (client (requests w) (model self) (request_texts batch))
    as [vectors|e] eqn:E1.
  - destruct (map_embeddings self vectors 0 (embedded_chunks batch))
      as [out|e] eqn:E; [reflexivity|].
    destruct (map_embeddings_raises _ _ _ _ _ E); subst; reflexivity.
  - destruct e; try reflexivity.
    unfold bind, sleep, extend. simpl.
    rewrite <- app_assoc. reflexivity.
Qed.

Lemma Exists_bad_single (self : EmbeddingsService) (ev : event) :
  Exists (bad_event self) [ev] -> bad_event self ev.
Proof. intros H. inversion H; subst; [assumption|]. inversion H1. Qed.

Lemma _embed_batch_trace (client : provider) (self : EmbeddingsService)
    (batch : IngestionBatch) (w w' : world)
    (r : result (list EmbeddedChunk)) :
  _embed_batch client self batch w = (r, w') ->
  exists ev,
    trace w' = trace w ++ [ev]
    /\ (bad_event self ev -> r = Raise ValueError).
Proof.
  rewrite _embed_batch_run. cbv zeta. intros H. inversion H; subst. clear H.
  eexists. split; [reflexivity|].
  destruct (client _ _ _) as [vectors|e]; simpl; [|contradiction].
  intros (j & v & Hj & Hv & Hlen).
  unfold request_texts in Hj. rewrite length_map in Hj.
  exact (map_embeddings_mismatch self vectors _ 0 j v Hj Hv Hlen).
Qed.

Lemma embed_with_retry_trace (client : provider) (self : EmbeddingsService)
    (batch : IngestionBatch) (w w' : world)
    (r : result (list EmbeddedChunk)) :
  embed_with_retry client self batch w = (r, w') ->
  exists evs,
    trace w' = trace w ++ evs
    /\ (Exists (bad_event self) evs -> r = Raise ValueError).
Proof.
  rewrite embed_with_retry_run. cbv zeta.
  destruct (client (requests w) (model self) (request_texts batch))
    as [vectors|e] eqn:E1.
  - intros H. destruct (_embed_batch_trace _ _ _ _ _ _ H) as (ev & T & B).
    exists [ev]. split; [exact T|].
    intros Hex. apply B. now apply Exists_bad_single.
  - assert (Plain :
      _embed_batch client self batch w = (r, w') ->
      exists evs,
        trace w' = trace w ++ evs
        /\ (Exists (bad_event self) evs -> r = Raise ValueError)).
    { intros H. destruct (_embed_batch_trace _ _ _ _ _ _ H) as (ev & T & B).
      exists [ev]. split; [exact T|].
      intros Hex. apply B. now apply Exists_bad_single. }
    destruct e; try exact Plain.
    intros H. destruct (_embed_batch_trace _ _ _ _ _ _ H) as (ev & T & B).
    simpl in T. rewrite <- app_assoc in T.
    eexists. split; [exact T|].
    intros Hex. apply B. simpl in Hex.
    inversion Hex as [? ? H0|? ? H0]; subst; [contradiction|].
    inversion H0 as [? ? H1|? ? H1]; subst; [contradiction|].
    now apply Exists_bad_single.
Qed.

Lemma batch_loop_trace (client : provider) (self : EmbeddingsService)
    (batch_delay_ms n_batches : Z) (batches : list IngestionBatch) :
  forall batch_idx acc w r w',
    batch_loop client self batch_delay_ms n_batches batch_idx batches acc w
      = (r, w') ->
    exists evs,
      trace w' = trace w ++ evs
      /\ (Exists (bad_event self) evs -> r = Raise ValueError).
Proof.
  induction batches as [|batch rest IH]; intros idx acc w r w' H;
    cbn [batch_loop] in H.
  - inversion H; subst. exists []. split; [now rewrite app_nil_r|].
    intros Hex. inversion Hex.
  - unfold bind at 1 in H.
    destruct (embed_with_retry client self batch w) as [r1 w1] eqn:E1.
    destruct (embed_with_retry_trace _ _ _ _ _ _ E1) as (evs1 & T1 & B1).
    destruct r1 as [embedded|e].
    + unfold bind at 1 in H.
      destruct ((if idx <? n_batches - 1 then sleep batch_delay_ms
                 else ret tt) w1) as [r2 w2] eqn:E2.
      assert (S2 : r2 = Ok tt
                   /\ exists evs2, trace w2 = trace w1 ++ evs2
                                   /\ ~ Exists (bad_event self) evs2).
      { destruct (idx <? n_batches - 1); inversion E2; subst; split;
          try reflexivity.
        - exists [Sleep batch_delay_ms]. split; [reflexivity|].
          intros Hex. apply Exists_bad_single in Hex. exact Hex.
        - exists []. split; [now rewrite app_nil_r|].
          intros Hex. inversion Hex. }
      destruct S2 as (-> & evs2 & T2 & B2).
      destruct (IH _ _ _ _ _ H) as (evs3 & T3 & B3).
      exists (evs1 ++ evs2 ++ evs3). split.
      * rewrite T3, T2, T1. now rewrite <- !app_assoc.
      * intros Hex. apply Exists_app in Hex. destruct Hex as [Hex|Hex].
        -- specialize (B1 Hex). discriminate.
        -- apply Exists_app in Hex. destruct Hex as [Hex|Hex];
             [contradiction|auto].
    + inversion H; subst. exists evs1. split; [exact T1|exact B1].
Qed.

(** C2.  In a run of [generate_embeddings], as soon as the provider returns,
    for some request, a vector that answers one of the request's texts and
    whose length is not the configured dimension, the run ends by raising
    [ValueError]: it returns no list of embedded chunks, whatever earlier
    batches produced. *)
Theorem dimension_mismatch_aborts
    (encoding : token_encoding) (client : provider)
    (self : EmbeddingsService) (chunks : list Chunk) (batch_delay_ms : Z)
    (n : nat) (r : result (list EmbeddedChunk)) (w : world)
    (m : str) (texts : list str) (vectors : list (list float))
    (j : nat) (v : list float) :
  generate_embeddings encoding client self chunks batch_delay_ms (start n)
    = (r, w) ->
  In (Request m texts (Data vectors)) (trace w) ->
  (j < List.length texts)%nat ->
  nth_error vectors j = Some v ->
  len v <> embedding_dimension self ->
  r = Raise ValueError /\ forall out, r <> Ok out.
Proof.
  intros Hrun Hin Hj Hv Hlen.
  assert (R : r = Raise ValueError).
  { unfold generate_embeddings in Hrun.
    destruct (negb (truthy chunks)).
    - inversion Hrun; subst. contradiction.
    - destruct (batch_loop_trace _ _ _ _ _ _ _ _ _ _ Hrun) as (evs & T & B).
      simpl in T. subst evs. apply B.
      apply Exists_exists. eexists. split; [exact Hin|].
      simpl. exists j, v. auto. }
  split; [exact R|]. intros out. rewrite R. discriminate.
Qed.

Lemma dimension_mismatch_aborts_witness :
  let chunks := [example_chunk (lit "Aaaa."); example_chunk (lit "Bbbb.")] in
  let run :=
    generate_embeddings None short_on_second one_per_batch chunks 100
      (start 0) in
  fst run = Raise ValueError /\ forall out, fst run <> Ok out.
Proof.
  intros chunks run.
  apply (dimension_mismatch_aborts None short_on_second one_per_batch chunks
           100 0 (fst run) (snd run) (model one_per_batch) [lit "Bbbb."]
           [[0%float]] 0 [0%float]).
  - apply surjective_pairing.
  - vm_compute. right. right. left. reflexivity.
  - simpl. lia.
  - reflexivity.
  - vm_compute. discriminate.
Defined.

(** A non-empty input is batched and handed to the loop, which starts with
    no embedded chunk. *)
Lemma generate_embeddings_is_batch_loop
    (encoding : token_encoding) (client : provider)
    (self : EmbeddingsService) (chunks : list Chunk) (batch_delay_ms : Z) :
  chunks <> [] ->
  generate_embeddings encoding client self chunks batch_delay_ms
  = batch_loop client self batch_delay_ms
      (len (_create_batches encoding self chunks)) 0
      (_create_batches encoding self chunks) [].
Proof.
  intros H. unfold generate_embeddings.
  apply ChunkerFacts.truthy_true_cons in H. now rewrite H.
Qed.

Lemma extend_extend (w : world) (k1 k2 : nat) (evs1 evs2 : list event) :
  extend (extend w k1 evs1) k2 evs2 = extend w (k2 + k1) (evs1 ++ evs2).
Proof.
  unfold extend. simpl. f_equal.
  - lia.
  - now rewrite app_assoc.
Qed.

(** C9.  For the batch at the head of the loop of [generate_embeddings], in
    any state of the run: a failure other than a rate limit on the first
    request ends the run with that failure after that single request; a rate
    limit on the first request is followed by a sleep of five seconds and
    exactly one more request for the same batch; whatever failure that second
    request meets, a rate limit included, ends the run with it, and no third
    request is made; and when the second request succeeds the run goes on
    with the next batch. *)
Theorem rate_limit_retried_once
    (client : provider) (self : EmbeddingsService)
    (batch_delay_ms n_batches batch_idx : Z)
    (batch : IngestionBatch) (rest : list IngestionBatch)
    (acc : list EmbeddedChunk) (w : world) :
  let texts := request_texts batch in
  let first := client (requests w) (model self) texts in
  let second := client (S (requests w)) (model self) texts in
  let run :=
    batch_loop client self batch_delay_ms n_batches batch_idx
      (batch :: rest) acc w in
  (forall e,
      first = Fails e -> e <> RateLimitError ->
      run = (Raise e, extend w 1 [Request (model self) texts first]))
  /\ (first = Fails RateLimitError ->
      forall e,
        second = Fails e ->
        run = (Raise e,
               extend w 2 [Request (model self) texts first; Sleep 5000;
                           Request (model self) texts second]))
  /\ (first = Fails RateLimitError ->
      forall vectors embedded,
        second = Data vectors ->
        map_embeddings self vectors 0 (embedded_chunks batch) = Ok embedded ->
        run =
        bind (if batch_idx <? n_batches - 1 then sleep batch_delay_ms
              else ret tt)
          (fun _ =>
             batch_loop client self batch_delay_ms n_batches (batch_idx + 1)
               rest (acc ++ embedded))
          (extend w 2 [Request (model self) texts first; Sleep 5000;
                       Request (model self) texts second])).
Proof.
  intros texts first second run.
  assert (Retry :
    first = Fails RateLimitError ->
    embed_with_retry client self batch w =
    (match second with
     | Data vectors => map_embeddings self vectors 0 (embedded_chunks batch)
     | Fails e => Raise e
     end,
     extend w 2 [Request (model self) texts first; Sleep 5000;
                 Request (model self) texts second])).
  { intros H1. rewrite embed_with_retry_run. cbv zeta.
    fold texts. fold first. rewrite H1. rewrite <- H1.
    rewrite _embed_batch_run. cbv zeta. rewrite extend_extend.
    reflexivity. }
  unfold run. cbn [batch_loop].
  split; [|split].
  - intros e H1 Hne. unfold bind at 1.
    rewrite embed_with_retry_run. cbv zeta. fold texts. fold first.
    rewrite H1.
    destruct e; try congruence;
      rewrite _embed_batch_run; cbv zeta; fold texts; fold first;
      rewrite H1; reflexivity.
  - intros H1 e H2. unfold bind at 1.
    rewrite (Retry H1), H2. reflexivity.
  - intros H1 vectors embedded H2 Hmap. unfold bind at 1.
    rewrite (Retry H1), H2, Hmap. reflexivity.
Qed.

Lemma rate_limit_retried_once_witness :
  let batch :=
    _create_embedded_chunk_batch None [example_chunk (lit "Aaaa.")] in
  let texts := [lit "Aaaa."] in
  let m := model default_service in
  fst (generate_embeddings None unavailable default_service
         [example_chunk (lit "Aaaa.")] 100 (start 0))
    = Raise APIError
  /\ generate_embeddings None always_throttled default_service
       [example_chunk (lit "Aaaa.")] 100 (start 0)
     = (Raise RateLimitError,
        extend (start 0) 2
          [Request m texts (Fails RateLimitError); Sleep 5000;
           Request m texts (Fails RateLimitError)])
  /\ trace (snd (generate_embeddings None throttled_once default_service
                   [example_chunk (lit "Aaaa.")] 100 (start 0)))
     = [Request m texts (Fails RateLimitError); Sleep 5000;
        Request m texts (Data [good_vector])].
Proof.
  intros batch texts m.
  destruct (rate_limit_retried_once unavailable default_service 100 1 0
              batch [] [] (start 0)) as (Other & _ & _).
  destruct (rate_limit_retried_once always_throttled default_service 100 1 0
              batch [] [] (start 0)) as (_ & Again & _).
  destruct (rate_limit_retried_once throttled_once default_service 100 1 0
              batch [] [] (start 0)) as (_ & _ & Recovered).
  split; [|split].
  - change (generate_embeddings None unavailable default_service
              [example_chunk (lit "Aaaa.")] 100 (start 0))
      with (batch_loop unavailable default_service 100 1 0 [batch] []
              (start 0)).
    rewrite (Other APIError); [reflexivity|reflexivity|discriminate].
  - change (generate_embeddings None always_throttled default_service
              [example_chunk (lit "Aaaa.")] 100 (start 0))
      with (batch_loop always_throttled default_service 100 1 0 [batch] []
              (start 0)).
    apply (Again eq_refl RateLimitError). reflexivity.
  - change (generate_embeddings None throttled_once default_service
              [example_chunk (lit "Aaaa.")] 100 (start 0))
      with (batch_loop throttled_once default_service 100 1 0 [batch] []
              (start 0)).
    rewrite (Recovered eq_refl [good_vector]
               (match map_embeddings default_service [good_vector] 0
                        (embedded_chunks batch) with
                | Ok l => l
                | Raise _ => []
                end)); [reflexivity|reflexivity|].
    vm_compute. reflexivity.
Defined.

End EmbedFacts.


(** ** Identifier generation: further properties *)

Module HashingMore.
Import Hashing Props.

Lemma fold_spec_step_mod (s : str) (h : Z) :
  fold_left spec_step s (h mod 2 ^ 32)
  = fold_left (fun acc c => acc * 31 + c) s h mod 2 ^ 32.
Proof.
  revert h. induction s as [|c s IH]; intros h; simpl.
  - reflexivity.
  - rewrite <- IH. f_equal. unfold spec_step, wrap32.
    rewrite Z.add_mod, Z.mul_mod_idemp_l, <- Z.add_mod by lia.
    reflexivity.
Qed.

(** X1.  Reducing to 32 bits after every character is the same as reducing
    once at the end: the numeric id is the base-31 polynomial of the code
    points modulo [2^32], a non-negative integer below [2^32]. *)
Theorem string_to_numeric_id_closed_form (s : str) :
  string_to_numeric_id s = poly31 s mod 2 ^ 32
  /\ 0 <= string_to_numeric_id s < 2 ^ 32.
Proof.
  assert (E : string_to_numeric_id s = poly31 s mod 2 ^ 32).
  { rewrite HashingFacts.string_to_numeric_id_unsigned. unfold poly31.
    rewrite <- fold_spec_step_mod. reflexivity. }
  split; [exact E|]. rewrite E. apply Z.mod_pos_bound. lia.
Qed.

Lemma utf16_units_bmp (s : str) :
  Forall (fun c => c < 65536) s -> utf16_units s = s.
Proof.
  induction 1 as [|c s Hc _ IH]; [reflexivity|].
  unfold utf16_units in *. cbn [flat_map]. rewrite IH.
  unfold utf16_units_of.
  replace (c <? 65536) with true by (symmetry; apply Z.ltb_lt; exact Hc).
  reflexivity.
Qed.

(** Outside the Basic Multilingual Plane the two read different numbers:
    for U+1F600 Python hashes one code point, TypeScript two code units. *)
Lemma astral_code_point_is_read_differently :
  string_to_numeric_id [128512] = 128512
  /\ typescript_numeric_id [128512] = 1772899.
Proof. split; reflexivity. Qed.

(** X2.  For a string whose code points are all below U+10000, so that
    Python's code points are the UTF-16 code units that the TypeScript
    original reads, the numeric id equals the TypeScript value whenever it
    is at most [2^31]; above [2^31] the two values add up to [2^32]. *)
Theorem numeric_id_against_signed_reference (s : str) :
  Forall (fun c => c < 65536) s ->
  (string_to_numeric_id s <= 2 ^ 31 ->
   string_to_numeric_id s = typescript_numeric_id s)
  /\ (2 ^ 31 < string_to_numeric_id s ->
      string_to_numeric_id s + typescript_numeric_id s = 2 ^ 32).
Proof.
  intros Hbmp. unfold typescript_numeric_id.
  rewrite (utf16_units_bmp s Hbmp).
  pose proof (HashingFacts.string_to_numeric_id_unsigned s) as U.
  pose proof (HashingFacts.fold_spec_range s 0 ltac:(lia)) as R.
  unfold numeric_id_spec, to_signed32. rewrite U.
  split; intros H; destruct (_ <? _) eqn:E;
    try (apply Z.ltb_lt in E); try (apply Z.ltb_ge in E); lia.
Qed.

Lemma numeric_id_against_signed_reference_witness :
  string_to_numeric_id (lit "usc-195-chunk-0")
    = typescript_numeric_id (lit "usc-195-chunk-0")
  /\ string_to_numeric_id (lit "usc-1-chunk-0")
     + typescript_numeric_id (lit "usc-1-chunk-0") = 2 ^ 32.
Proof.
  split.
  - apply (proj1 (numeric_id_against_signed_reference
                    (lit "usc-195-chunk-0")
                    ltac:(repeat (constructor; [reflexivity|]);
                          constructor))).
    vm_compute. discriminate.
  - apply (proj2 (numeric_id_against_signed_reference
                    (lit "usc-1-chunk-0")
                    ltac:(repeat (constructor; [reflexivity|]);
                          constructor))).
    reflexivity.
Defined.

Lemma lit_injective (a b : string) : lit a = lit b -> a = b.
Proof.
  unfold lit. intros H.
  rewrite <- (string_of_list_ascii_of_string a),
          <- (string_of_list_ascii_of_string b).
  f_equal. revert H.
  generalize (list_ascii_of_string a) (list_ascii_of_string b).
  induction l as [|x l IH]; intros [|y l'] H; simpl in H;
    try discriminate; [reflexivity|].
  injection H as Hxy Hl. f_equal; [|now apply IH].
  apply Nat2Z.inj in Hxy.
  rewrite <- (ascii_nat_embedding x), <- (ascii_nat_embedding y).
  now rewrite Hxy.
Qed.

Lemma str_of_int_injective (a b : Z) : str_of_int a = str_of_int b -> a = b.
Proof.
  unfold str_of_int. intros H. apply lit_injective in H.
  assert (E : Some (Z.to_int a) = Some (Z.to_int b)).
  { rewrite <- (NilEmpty.isi (Z.to_int a)), <- (NilEmpty.isi (Z.to_int b)).
    now rewrite H. }
  injection E as E.
  rewrite <- (DecimalZ.of_to a), <- (DecimalZ.of_to b). now rewrite E.
Qed.

(** X3.  For a fixed source type and citation, chunks with different
    indices get different string ids. *)
Theorem generate_chunk_id_separates_indices
    (source_type citation : str) (i j : Z) :
  i <> j ->
  generate_chunk_id source_type citation i
  <> generate_chunk_id source_type citation j.
Proof.
  intros Hij H. apply Hij. unfold generate_chunk_id in H.
  repeat apply app_inv_head in H.
  now apply str_of_int_injective.
Qed.

Lemma generate_chunk_id_separates_indices_witness :
  0 <> 10
  /\ generate_chunk_id (lit "usc") (lit "26 U.S.C. 195") 0
     <> generate_chunk_id (lit "usc") (lit "26 U.S.C. 195") 10.
Proof.
  split; [discriminate|].
  apply (generate_chunk_id_separates_indices
           (lit "usc") (lit "26 U.S.C. 195") 0 10).
  discriminate.
Defined.

(** X4.  The sanitised citation has the length of the citation, holds no
    space, slash or period, and sanitising it again changes nothing. *)
Theorem sanitize_shape (citation : str) :
  List.length (sanitize citation) = List.length citation
  /\ Forall (fun c => c <> 32 /\ c <> 47 /\ c <> 46) (sanitize citation)
  /\ sanitize (sanitize citation) = sanitize citation.
Proof.
  split; [|split].
  - unfold sanitize, replace1. now rewrite !length_map.
  - induction citation as [|c l IH].
    + constructor.
    + rewrite HashingFacts.sanitize_cons, HashingFacts.sanitize_char.
      constructor; [|exact IH].
      unfold hyphenated.
      destruct (c =? 32) eqn:E1; simpl; [lia|].
      destruct (c =? 47) eqn:E2; simpl; [lia|].
      destruct (c =? 46) eqn:E3; simpl; [lia|].
      apply Z.eqb_neq in E1, E2, E3.
      destruct (c =? 45); lia.
  - induction citation as [|c l IH].
    + reflexivity.
    + rewrite (HashingFacts.sanitize_cons c l), HashingFacts.sanitize_char.
      simpl app.
      rewrite HashingFacts.sanitize_cons, HashingFacts.sanitize_char, IH.
      simpl app. f_equal.
      destruct (hyphenated c) eqn:E; [reflexivity|now rewrite E].
Qed.

End HashingMore.


(** ** Text normalisation *)

Module CleanFacts.
Import Models Chunker Props.

Lemma collapse_newlines_no_triple (s : str) :
  forall run, (run <= 2)%nat ->
    no_triple_newline_from run (collapse_newlines run s) = true.
Proof.
  induction s as [|c s IH]; intros run Hrun; [reflexivity|].
  cbn [collapse_newlines].
  destruct (c =? 10) eqn:Ec.
  - destruct (2 <=? run)%nat eqn:E2.
    + now apply IH.
    + apply Nat.leb_gt in E2. cbn [no_triple_newline_from]. rewrite Ec.
      replace (run <? 2)%nat with true by (symmetry; apply Nat.ltb_lt; lia).
      apply IH. lia.
  - cbn [no_triple_newline_from]. rewrite Ec. apply IH. lia.
Qed.

Lemma collapse_newlines_fixed (s : str) :
  forall run,
    no_triple_newline_from run s = true -> collapse_newlines run s = s.
Proof.
  induction s as [|c s IH]; intros run H; [reflexivity|].
  cbn [collapse_newlines no_triple_newline_from] in *.
  destruct (c =? 10).
  - apply andb_true_iff in H. destruct H as [H1 H2].
    apply Nat.ltb_lt in H1.
    replace (2 <=? run)%nat with false by (symmetry; apply Nat.leb_gt; lia).
    now rewrite (IH _ H2).
  - now rewrite (IH _ H).
Qed.

Lemma collapse_spaces_head (s : str) :
  hd_error (collapse_spaces s) = hd_error s.
Proof.
  induction s as [|c s IH]; [reflexivity|]. cbn [collapse_spaces].
  destruct ((c =? 32)
            && match s with c' :: _ => c' =? 32 | [] => false end) eqn:E;
    [|reflexivity].
  rewrite IH. apply andb_true_iff in E. destruct E as [Ec Es].
  destruct s as [|c' s']; [discriminate|]. simpl.
  apply Z.eqb_eq in Ec, Es. now subst.
Qed.

Lemma second_is_space (s : str) :
  match collapse_spaces s with c' :: _ => c' =? 32 | [] => false end
  = match s with c' :: _ => c' =? 32 | [] => false end.
Proof.
  pose proof (collapse_spaces_head s) as H.
  destruct (collapse_spaces s), s; simpl in H; congruence.
Qed.

Lemma collapse_spaces_no_double (s : str) :
  no_double_space (collapse_spaces s) = true.
Proof.
  induction s as [|c s IH]; simpl; [reflexivity|].
  destruct ((c =? 32)
            && match s with c' :: _ => c' =? 32 | [] => false end) eqn:E.
  - exact IH.
  - simpl. rewrite second_is_space, E, IH. reflexivity.
Qed.

Lemma collapse_spaces_fixed (s : str) :
  no_double_space s = true -> collapse_spaces s = s.
Proof.
  induction s as [|c s IH]; intros H; simpl in *; [reflexivity|].
  apply andb_true_iff in H. destruct H as [H1 H2].
  apply negb_true_iff in H1. rewrite H1. now rewrite (IH H2).
Qed.

Lemma no_triple_after_other (c : Z) (s : str) (run : nat) :
  (c =? 10) = false ->
  no_triple_newline_from run (c :: s) = no_triple_newline_from 0 (c :: s).
Proof. intros H. simpl. now rewrite H. Qed.

Lemma collapse_spaces_keeps_no_triple (s : str) :
  forall run,
    no_triple_newline_from run s = true ->
    no_triple_newline_from run (collapse_spaces s) = true.
Proof.
  induction s as [|c s IH]; intros run H; [reflexivity|].
  cbn [collapse_spaces].
  destruct ((c =? 32)
            && match s with c' :: _ => c' =? 32 | [] => false end) eqn:E.
  - apply andb_true_iff in E. destruct E as [Ec Es].
    apply Z.eqb_eq in Ec. subst c. simpl in H.
    pose proof (second_is_space s) as Hs. rewrite Es in Hs.
    pose proof (IH 0%nat H) as H0.
    destruct (collapse_spaces s) as [|c' t]; [discriminate|].
    apply Z.eqb_eq in Hs. subst c'.
    rewrite no_triple_after_other by reflexivity. exact H0.
  - simpl in *. destruct (c =? 10).
    + apply andb_true_iff in H. destruct H as [H1 H2].
      rewrite H1. simpl. now apply IH.
    + now apply IH.
Qed.

Lemma no_triple_mono (s : str) :
  forall run run' : nat,
    (run' <= run)%nat ->
    no_triple_newline_from run s = true ->
    no_triple_newline_from run' s = true.
Proof.
  induction s as [|c s IH]; intros run run' Hle H; simpl in *; [reflexivity|].
  destruct (c =? 10); [|exact H].
  apply andb_true_iff in H. destruct H as [H1 H2].
  apply Nat.ltb_lt in H1. apply andb_true_iff. split.
  - apply Nat.ltb_lt. lia.
  - apply (IH (S run)); [lia|exact H2].
Qed.

Lemma no_triple_prefix (a b : str) :
  forall run,
    no_triple_newline_from run (a ++ b) = true ->
    no_triple_newline_from run a = true.
Proof.
  induction a as [|c a IH]; intros run H; simpl in *; [reflexivity|].
  destruct (c =? 10).
  - apply andb_true_iff in H. destruct H as [H1 H2].
    rewrite H1. simpl. now apply IH.
  - now apply IH.
Qed.

Lemma no_triple_suffix (a b : str) :
  forall run,
    no_triple_newline_from run (a ++ b) = true ->
    no_triple_newline_from 0 b = true.
Proof.
  induction a as [|c a IH]; intros run H; simpl in *.
  - apply (no_triple_mono b run 0); [lia|exact H].
  - destruct (c =? 10).
    + apply andb_true_iff in H. destruct H as [_ H2]. now apply (IH _ H2).
    + now apply (IH _ H).
Qed.

Lemma no_double_prefix (a b : str) :
  no_double_space (a ++ b) = true -> no_double_space a = true.
Proof.
  induction a as [|c a IH]; intros H; simpl in *; [reflexivity|].
  apply andb_true_iff in H. destruct H as [H1 H2].
  rewrite (IH H2), andb_true_r.
  destruct a as [|c' a']; simpl in *.
  - now rewrite andb_false_r.
  - exact H1.
Qed.

Lemma no_double_suffix (a b : str) :
  no_double_space (a ++ b) = true -> no_double_space b = true.
Proof.
  induction a as [|c a IH]; intros H; simpl in *; [exact H|].
  apply andb_true_iff in H. destruct H as [_ H2]. now apply IH.
Qed.

Lemma lstrip_suffix (s : str) : exists pre, s = pre ++ lstrip s.
Proof.
  induction s as [|c s [pre IH]]; simpl.
  - now exists [].
  - destruct (isspace c).
    + exists (c :: pre). simpl. now rewrite <- IH.
    + now exists [].
Qed.

Lemma rstrip_prefix (s : str) : exists post, s = rstrip s ++ post.
Proof.
  unfold rstrip. destruct (lstrip_suffix (rev s)) as [pre H].
  exists (rev pre).
  rewrite <- rev_app_distr, <- H. symmetry. apply rev_involutive.
Qed.

Lemma lstrip_idempotent (s : str) : lstrip (lstrip s) = lstrip s.
Proof.
  induction s as [|c s IH]; simpl; [reflexivity|].
  destruct (isspace c) eqn:E; [exact IH|]. simpl. now rewrite E.
Qed.

Lemma lstrip_head (s : str) (c : Z) (t : str) :
  lstrip s = c :: t -> isspace c = false.
Proof.
  induction s as [|x s IH]; simpl; [discriminate|].
  destruct (isspace x) eqn:E; [exact IH|].
  intros H. injection H as <- _. exact E.
Qed.

Lemma lstrip_snoc_visible (y : str) (c : Z) :
  isspace c = false -> exists y', lstrip (y ++ [c]) = y' ++ [c].
Proof.
  intros Hc. induction y as [|x y [y' IH]]; simpl.
  - rewrite Hc. now exists [].
  - destruct (isspace x).
    + now exists y'.
    + now exists (x :: y).
Qed.

Lemma rstrip_idempotent (s : str) : rstrip (rstrip s) = rstrip s.
Proof.
  unfold rstrip. now rewrite rev_involutive, lstrip_idempotent.
Qed.

Lemma strip_idempotent (s : str) : strip (strip s) = strip s.
Proof.
  unfold strip.
  destruct (lstrip s) as [|c x] eqn:E.
  - reflexivity.
  - pose proof (lstrip_head s c x E) as Hc.
    assert (H : exists t, rstrip (c :: x) = c :: t).
    { unfold rstrip. simpl rev.
      destruct (lstrip_snoc_visible (rev x) c Hc) as [y' Hy].
      rewrite Hy, rev_app_distr. simpl. eauto. }
    destruct H as [t Ht].
    assert (L : lstrip (rstrip (c :: x)) = rstrip (c :: x))
      by (rewrite Ht; simpl; now rewrite Hc).
    rewrite L. apply rstrip_idempotent.
Qed.

Lemma strip_keeps_no_triple (s : str) :
  no_triple_newline s = true -> no_triple_newline (strip s) = true.
Proof.
  unfold no_triple_newline, strip. intros H.
  destruct (lstrip_suffix s) as [pre Hpre].
  destruct (rstrip_prefix (lstrip s)) as [post Hpost].
  rewrite Hpre in H. apply no_triple_suffix in H.
  rewrite Hpost in H. now apply no_triple_prefix in H.
Qed.

Lemma strip_keeps_no_double (s : str) :
  no_double_space s = true -> no_double_space (strip s) = true.
Proof.
  unfold strip. intros H.
  destruct (lstrip_suffix s) as [pre Hpre].
  destruct (rstrip_prefix (lstrip s)) as [post Hpost].
  rewrite Hpre in H. apply no_double_suffix in H.
  rewrite Hpost in H. now apply no_double_prefix in H.
Qed.

(** X5.  Normalised text has no white space at either end, no two spaces in
    a row and no three newlines in a row. *)
Theorem clean_text_shape (text : str) :
  strip (_clean_text text) = _clean_text text
  /\ no_double_space (_clean_text text) = true
  /\ no_triple_newline (_clean_text text) = true.
Proof.
  unfold _clean_text. split; [|split].
  - apply strip_idempotent.
  - apply strip_keeps_no_double, collapse_spaces_no_double.
  - apply strip_keeps_no_triple. unfold no_triple_newline.
    apply collapse_spaces_keeps_no_triple, collapse_newlines_no_triple. lia.
Qed.

(** X6.  Normalising text that is already normalised changes nothing. *)
Theorem clean_text_idempotent (text : str) :
  _clean_text (_clean_text text) = _clean_text text.
Proof.
  assert (Hs : strip (_clean_text text) = _clean_text text)
    by (unfold _clean_text; apply strip_idempotent).
  assert (Hd : no_double_space (_clean_text text) = true)
    by (unfold _clean_text;
        apply strip_keeps_no_double, collapse_spaces_no_double).
  assert (Ht : no_triple_newline_from 0 (_clean_text text) = true).
  { unfold _clean_text. apply strip_keeps_no_triple.
    apply collapse_spaces_keeps_no_triple, collapse_newlines_no_triple.
    lia. }
  set (x := _clean_text text) in *.
  unfold _clean_text at 1.
  rewrite (collapse_newlines_fixed x 0 Ht), (collapse_spaces_fixed x Hd).
  exact Hs.
Qed.

End CleanFacts.


(** ** Chunking: further properties *)

Module ChunkerMore.
Import Models Chunker Props.

Lemma chunk_objects_of_document (md : Metadata) (total : Z)
    (chunks : list str) :
  forall idx,
    Forall (chunk_of_document md) (chunk_objects md total idx chunks).
Proof.
  induction chunks as [|s rest IH]; intros idx; simpl; [constructor|].
  destruct (truthy (strip s)) eqn:Et; simpl; [|apply IH].
  constructor; [|apply IH].
  unfold chunk_of_document. simpl. repeat split.
  - now apply ChunkerFacts.truthy_true_cons.
  - apply CleanFacts.strip_idempotent.
Qed.

(** X7.  Every chunk that [chunk_document] returns has visible text with no
    white space at either end, carries the source type and citation of the
    document, and has the string id generated from its own index. *)
Theorem chunks_are_well_formed
    (sent_tokenize : tokenizer) (self : TextChunker) (text : str)
    (md : Metadata) (out : list Chunk) :
  chunk_document sent_tokenize self text md = Ok out ->
  Forall (chunk_of_document md) out.
Proof.
  unfold chunk_document. intros H.
  destruct (truthy (_clean_text text)) eqn:Et; simpl in H;
    [|inversion H; constructor].
  destruct (_ <=? _).
  - inversion H; subst. constructor; [|constructor].
    unfold chunk_of_document. simpl. repeat split.
    + now apply ChunkerFacts.truthy_true_cons.
    + unfold _clean_text. apply CleanFacts.strip_idempotent.
  - unfold _split_into_chunks in H.
    destruct (raw_chunks _ _ _) as [chunks|e]; [|discriminate].
    inversion H; subst. apply chunk_objects_of_document.
Qed.

Lemma chunks_are_well_formed_witness :
  let text := lit "xyz" ++ PARA_SEP ++ lit "Aaaa. Bbbb. Cccc." in
  let out :=
    match chunk_document plain_tokenizer small_chunker text usc_195 with
    | Ok chunks => chunks
    | Raise _ => []
    end in
  Forall (chunk_of_document usc_195) out.
Proof.
  intros text out.
  apply (chunks_are_well_formed plain_tokenizer small_chunker text usc_195).
  reflexivity.
Defined.

Lemma chunk_objects_ordered (md : Metadata) (total : Z) (chunks : list str) :
  forall idx,
    Forall (fun c => idx <= chunk_index (metadata c) < idx + len chunks
                     /\ total_chunks (metadata c) = total)
      (chunk_objects md total idx chunks)
    /\ StronglySorted Z.lt (chunk_indices (chunk_objects md total idx chunks))
    /\ map string_id (chunk_objects md total idx chunks)
       = map (Hashing.generate_chunk_id (md_source_type md) (md_citation md))
           (chunk_indices (chunk_objects md total idx chunks)).
Proof.
  induction chunks as [|s rest IH]; intros idx.
  - repeat split; constructor.
  - assert (Hlen : len (s :: rest) = len rest + 1)
      by (unfold len; simpl List.length; lia).
    rewrite Hlen. cbn [chunk_objects].
    destruct (IH (idx + 1)) as (IH1 & IH2 & IH3).
    assert (Hrest :
      Forall (fun c => idx < chunk_index (metadata c)
                       /\ chunk_index (metadata c) < idx + (len rest + 1)
                       /\ total_chunks (metadata c) = total)
        (chunk_objects md total (idx + 1) rest)).
    { eapply Forall_impl; [|exact IH1]. intros c [Hc Ht]. lia. }
    destruct (negb _).
    + split; [|split; [exact IH2|exact IH3]].
      eapply Forall_impl; [|exact Hrest]. intros c Hc. cbv beta in Hc. lia.
    + split; [|split].
      * constructor.
        -- pose proof (ChunkerFacts.len_nonneg rest). simpl. lia.
        -- eapply Forall_impl; [|exact Hrest]. intros c Hc.
           cbv beta in Hc. lia.
      * cbn [chunk_indices map]. constructor; [exact IH2|].
        apply Forall_map.
        eapply Forall_impl; [|exact Hrest]. intros c Hc.
        cbv beta in Hc. simpl. lia.
      * cbn [chunk_indices map] in *. now rewrite IH3.
Qed.

Lemma sorted_lt_NoDup (l : list Z) : StronglySorted Z.lt l -> NoDup l.
Proof.
  induction 1 as [|a l _ IH Ha]; constructor; [|exact IH].
  intros Hin. rewrite Forall_forall in Ha. specialize (Ha a Hin). lia.
Qed.

Lemma NoDup_map_injective {A B} (f : A -> B) (l : list A) :
  (forall x y, f x = f y -> x = y) -> NoDup l -> NoDup (map f l).
Proof.
  intros Hf. induction 1 as [|a l Ha _ IH]; simpl; constructor; [|exact IH].
  intros Hin. apply in_map_iff in Hin. destruct Hin as [x [Hx Hin]].
  apply Hf in Hx. now subst.
Qed.

(** X8.  Whatever the sentence tokenizer does, the chunks of a document come
    with strictly increasing [chunk_index] values, each between 0 and
    [total_chunks - 1], and with pairwise different string ids. *)
Theorem chunk_ids_are_distinct
    (sent_tokenize : tokenizer) (self : TextChunker) (text : str)
    (md : Metadata) (out : list Chunk) :
  chunk_document sent_tokenize self text md = Ok out ->
  StronglySorted Z.lt (chunk_indices out)
  /\ Forall (fun c =>
               0 <= chunk_index (metadata c) < total_chunks (metadata c)) out
  /\ NoDup (map string_id out).
Proof.
  intros H.
  assert (Core :
    StronglySorted Z.lt (chunk_indices out)
    /\ Forall (fun c =>
                 0 <= chunk_index (metadata c) < total_chunks (metadata c))
         out
    /\ map string_id out
       = map (Hashing.generate_chunk_id (md_source_type md) (md_citation md))
           (chunk_indices out)).
  { unfold chunk_document in H.
    destruct (truthy (_clean_text text)); simpl in H;
      [|inversion H; repeat split; constructor].
    destruct (_ <=? _).
    - inversion H; subst. split; [|split].
      + repeat constructor.
      + constructor; [simpl; lia|constructor].
      + reflexivity.
    - unfold _split_into_chunks in H.
      destruct (raw_chunks _ _ _) as [chunks|e]; [|discriminate].
      inversion H; subst.
      destruct (chunk_objects_ordered md (len chunks) chunks 0)
        as (B & S & I).
      split; [exact S|]. split; [|exact I].
      eapply Forall_impl; [|exact B]. intros c [Hc Ht]. lia. }
  destruct Core as (S & B & Ids). split; [exact S|]. split; [exact B|].
  rewrite Ids. apply NoDup_map_injective.
  - intros i j E. destruct (Z.eq_dec i j) as [|Hne]; [assumption|].
    exfalso. revert E. unfold Hashing.generate_chunk_id. intros E.
    repeat apply app_inv_head in E.
    now apply HashingMore.str_of_int_injective in E.
  - now apply sorted_lt_NoDup.
Qed.

Lemma chunk_ids_are_distinct_witness :
  let text := lit "xyz" ++ PARA_SEP ++ lit "Aaaa. Bbbb. Cccc." in
  let out :=
    match chunk_document plain_tokenizer small_chunker text usc_195 with
    | Ok chunks => chunks
    | Raise _ => []
    end in
  StronglySorted Z.lt (chunk_indices out)
  /\ Forall (fun c =>
               0 <= chunk_index (metadata c) < total_chunks (metadata c)) out
  /\ NoDup (map string_id out).
Proof.
  intros text out.
  apply (chunk_ids_are_distinct plain_tokenizer small_chunker text usc_195).
  reflexivity.
Defined.

(** *** Exceptions *)

Lemma split_by_regex_not_empty (self : TextChunker) (text : str) :
  split_by_regex self text <> [].
Proof.
  unfold split_by_regex.
  destruct (negb _); [discriminate|].
  destruct (group_matches _ _ _ _); simpl; discriminate.
Qed.

(** Grouping yields no chunk only when there is nothing but empty
    sentences to group. *)
Lemma group_sentences_empty (self : TextChunker) (sentences : list str) :
  forall chunks current,
    group_sentences self sentences chunks current = [] ->
    chunks = [] /\ current = [] /\ Forall (fun sent => sent = []) sentences.
Proof.
  induction sentences as [|sent rest IH]; intros chunks current H;
    cbn [group_sentences] in H.
  - destruct current as [|c current]; cbn [truthy] in H.
    + now repeat split.
    + now destruct chunks.
  - destruct (_ <=? _).
    + apply IH in H. destruct H as (-> & Hcur & Hrest).
      destruct current as [|c current]; cbn [truthy] in Hcur;
        [|discriminate].
      subst sent. repeat split. now constructor.
    + apply IH in H. destruct H as (Hch & -> & Hrest).
      destruct current as [|c current]; cbn [truthy] in Hch.
      * subst chunks. repeat split. now constructor.
      * now destruct chunks.
Qed.

Lemma paragraph_step_raises (sent_tokenize : tokenizer) (self : TextChunker)
    (st : list str * str) (paragraph : str) (e : exn) :
  paragraph_step sent_tokenize self st paragraph = Raise e ->
  e = IndexError /\ empty_sentence_list sent_tokenize self paragraph.
Proof.
  unfold paragraph_step. destruct st as [chunks current].
  destruct (negb _); [discriminate|].
  destruct (_ <=? _); [discriminate|].
  destruct (truthy current); [|discriminate].
  destruct (_ >? _) eqn:Eg; [|discriminate].
  destruct (_split_by_sentences sent_tokenize self (strip paragraph))
    as [|first rest] eqn:E.
  - intros H. injection H as <-. split; [reflexivity|].
    split; [rewrite Z.gtb_ltb in Eg; now apply Z.ltb_lt in Eg|].
    unfold _split_by_sentences in E.
    destruct sent_tokenize as [tokenize|];
      [|now apply split_by_regex_not_empty in E].
    destruct (tokenize (strip paragraph)) as [sentences|] eqn:Et;
      [|now apply split_by_regex_not_empty in E].
    exists tokenize, sentences. repeat split.
    + exact Et.
    + now apply group_sentences_empty in E.
  - destruct (fold_left _ _ _) as [[c2 cur2] ov2]. discriminate.
Qed.

Lemma paragraph_loop_raises (sent_tokenize : tokenizer) (self : TextChunker)
    (paragraphs : list str) :
  forall st e,
    paragraph_loop sent_tokenize self paragraphs st = Raise e ->
    e = IndexError
    /\ exists paragraph,
         In paragraph paragraphs
         /\ empty_sentence_list sent_tokenize self paragraph.
Proof.
  induction paragraphs as [|p rest IH]; intros st e H;
    cbn [paragraph_loop] in H; [discriminate|].
  destruct (paragraph_step sent_tokenize self st p) as [st'|e'] eqn:E.
  - destruct (IH _ _ H) as [He (q & Hin & Hq)].
    split; [exact He|]. exists q. split; [now right|exact Hq].
  - injection H as <-.
    destruct (paragraph_step_raises _ _ _ _ _ E) as [He Hp].
    split; [exact He|]. exists p. split; [now left|exact Hp].
Qed.

(** X9.  The text splitting of [_split_into_chunks] (the loop over the
    paragraphs and the final flush, before any chunk object is built) fails
    in one way only: [para_chunks[0]] raises [IndexError] on an empty list,
    which takes a paragraph longer than [max_chunk_size] for which NLTK's
    tokenizer returned without error a list of nothing but empty sentences.
    With the regex fallback the splitting always returns its list of
    texts. *)
Theorem text_splitting_raises_only_index_error
    (sent_tokenize : tokenizer) (self : TextChunker) (text : str) :
  (forall e,
      raw_chunks sent_tokenize self text = Raise e ->
      e = IndexError
      /\ exists tokenize paragraph sentences,
           sent_tokenize = Some tokenize
           /\ In paragraph (split_paragraphs [] text)
           /\ max_chunk_size self < len (strip paragraph)
           /\ tokenize (strip paragraph) = Some sentences
           /\ Forall (fun sent => sent = []) sentences)
  /\ exists chunks, raw_chunks None self text = Ok chunks.
Proof.
  assert (R : forall tok e,
    raw_chunks tok self text = Raise e ->
    e = IndexError
    /\ exists paragraph,
         In paragraph (split_paragraphs [] text)
         /\ empty_sentence_list tok self paragraph).
  { intros tok e. unfold raw_chunks.
    destruct (paragraph_loop tok self _ _) as [[chunks current]|e'] eqn:E;
      [discriminate|].
    intros H. injection H as <-. exact (paragraph_loop_raises _ _ _ _ _ E). }
  split.
  - intros e H.
    destruct (R _ _ H) as [He (p & Hin & Hlong & tokenize & sentences & Ht)].
    split; [exact He|].
    exists tokenize, p, sentences. tauto.
  - destruct (raw_chunks None self text) as [chunks|e] eqn:E.
    + now exists chunks.
    + destruct (R None e E)
        as [_ (p & _ & _ & tokenize & sentences & Ht & _)].
      discriminate Ht.
Qed.

Lemma text_splitting_raises_only_index_error_witness :
  raw_chunks silent_tokenizer small_chunker
    (lit "xyz" ++ PARA_SEP ++ lit "Aaaa. Bbbb. Cccc.")
  = Raise IndexError.
Proof.
  destruct (raw_chunks silent_tokenizer small_chunker
              (lit "xyz" ++ PARA_SEP ++ lit "Aaaa. Bbbb. Cccc."))
    as [out|e] eqn:E.
  - vm_compute in E. discriminate.
  - f_equal.
    apply (proj1 (text_splitting_raises_only_index_error silent_tokenizer
                    small_chunker
                    (lit "xyz" ++ PARA_SEP ++ lit "Aaaa. Bbbb. Cccc."))
             e E).
Defined.

(** *** A document that is one long paragraph *)

Lemma split_paragraphs_single (s : str) :
  has_para_sep s = false ->
  forall acc, split_paragraphs acc s = [rev acc ++ s].
Proof.
  induction s as [|c s IH]; intros H acc.
  - simpl. now rewrite app_nil_r.
  - cbn [split_paragraphs]. destruct s as [|c' s'].
    + reflexivity.
    + cbn [has_para_sep] in H. apply orb_false_iff in H.
      destruct H as [H1 H2]. rewrite H1.
      rewrite (IH H2 (c :: acc)). simpl. now rewrite <- app_assoc.
Qed.

(** X10.  A document whose normalised text is longer than [max_chunk_size]
    and is a single paragraph (it holds no two newlines in a row) yields no
    chunk at all, with or without NLTK. *)
Theorem single_long_paragraph_yields_nothing
    (sent_tokenize : tokenizer) (self : TextChunker) (text : str)
    (md : Metadata) :
  max_chunk_size self < len (_clean_text text) ->
  has_para_sep (_clean_text text) = false ->
  chunk_document sent_tokenize self text md = Ok [].
Proof.
  intros Hlong Hsep. unfold chunk_document.
  destruct (negb _); [reflexivity|].
  replace (len (_clean_text text) <=? max_chunk_size self) with false
    by (symmetry; apply Z.leb_gt; exact Hlong).
  unfold _split_into_chunks, raw_chunks.
  rewrite (split_paragraphs_single _ Hsep []). simpl app.
  cbn [paragraph_loop].
  rewrite ChunkerFacts.paragraph_step_empty_buffer; [reflexivity|].
  unfold _clean_text at 1. rewrite CleanFacts.strip_idempotent.
  fold (_clean_text text). lia.
Qed.

Lemma single_long_paragraph_yields_nothing_witness :
  chunk_document plain_tokenizer small_chunker
    (lit "  Aaaa.   Bbbb. Cccc.  ") usc_195 = Ok [].
Proof.
  apply (single_long_paragraph_yields_nothing plain_tokenizer small_chunker
           (lit "  Aaaa.   Bbbb. Cccc.  ") usc_195).
  - reflexivity.
  - reflexivity.
Defined.

(** *** Several documents *)

Lemma documents_loop_from (sent_tokenize : tokenizer) (self : TextChunker)
    (documents : list Document) :
  forall all_chunks,
    documents_loop sent_tokenize self documents all_chunks
    = match documents_loop sent_tokenize self documents [] with
      | Ok chunks => Ok (all_chunks ++ chunks)
      | Raise e => Raise e
      end.
Proof.
  induction documents as [|doc rest IH]; intros acc; cbn [documents_loop].
  - now rewrite app_nil_r.
  - destruct (chunk_document _ _ _ _) as [chunks|e]; [|reflexivity].
    rewrite (IH (acc ++ chunks)), (IH ([] ++ chunks)).
    destruct (documents_loop _ _ rest []); [|reflexivity].
    simpl. now rewrite app_assoc.
Qed.

(** X11.  Chunking a list of documents is chunking each one on its own and
    concatenating the results in input order: for two lists in a row the
    result is the result for the first followed by the result for the
    second, and the first exception, if any, is the outcome. *)
Theorem chunk_documents_batch_app
    (sent_tokenize : tokenizer) (self : TextChunker)
    (docs1 docs2 : list Document) :
  chunk_documents_batch sent_tokenize self (docs1 ++ docs2)
  = match chunk_documents_batch sent_tokenize self docs1 with
    | Raise e => Raise e
    | Ok chunks1 =>
        match chunk_documents_batch sent_tokenize self docs2 with
        | Raise e => Raise e
        | Ok chunks2 => Ok (chunks1 ++ chunks2)
        end
    end.
Proof.
  unfold chunk_documents_batch.
  induction docs1 as [|doc rest IH]; cbn [documents_loop app].
  - destruct (documents_loop _ _ docs2 []); reflexivity.
  - destruct (chunk_document _ _ _ _) as [chunks|e]; [|reflexivity].
    rewrite (documents_loop_from _ _ (rest ++ docs2) ([] ++ chunks)),
            (documents_loop_from _ _ rest ([] ++ chunks)), IH.
    destruct (documents_loop _ _ rest []); [|reflexivity].
    destruct (documents_loop _ _ docs2 []); [|reflexivity].
    simpl. now rewrite app_assoc.
Qed.

(** *** The overlap after a paragraph that fits *)

(** X12.  With a positive [overlap_size], when a paragraph of at most
    [max_chunk_size] characters does not fit after a non-empty buffer, the
    iteration of the paragraph loop flushes the buffer and starts the next
    buffer with the last [overlap_size] characters of the flushed buffer
    (all of it when it is shorter), followed by the paragraph; no word
    boundary is looked for. *)
Theorem fitting_paragraph_is_seeded_with_suffix
    (sent_tokenize : tokenizer) (self : TextChunker) (chunks : list str)
    (current_chunk paragraph : str) :
  0 < overlap_size self ->
  current_chunk <> [] ->
  strip paragraph <> [] ->
  max_chunk_size self < len current_chunk + len (strip paragraph) + 2 ->
  len (strip paragraph) <= max_chunk_size self ->
  exists before seed,
    current_chunk = before ++ seed
    /\ len seed = Z.min (overlap_size self) (len current_chunk)
    /\ paragraph_step sent_tokenize self (chunks, current_chunk) paragraph
       = Ok (chunks ++ [current_chunk], seed ++ strip paragraph).
Proof.
  intros Hov Hcur Hpar Hover Hfit.
  set (k := clamp (len current_chunk) (- overlap_size self)).
  exists (firstn k current_chunk), (skipn k current_chunk).
  assert (Eseed : _get_overlap_at_word_boundary self
                    (slice_from (- overlap_size self) current_chunk)
                  = skipn k current_chunk).
  { change (overlap_seed self current_chunk = skipn k current_chunk).
    rewrite ChunkerFacts.overlap_seed_is_window by exact Hov.
    reflexivity. }
  split; [symmetry; apply firstn_skipn|]. split.
  - unfold k, clamp, len.
    replace (- overlap_size self <? 0) with true
      by (symmetry; apply Z.ltb_lt; lia).
    rewrite length_skipn. lia.
  - unfold paragraph_step.
    apply ChunkerFacts.truthy_true_cons in Hcur, Hpar. rewrite Hpar.
    simpl negb. cbv iota.
    replace (len current_chunk + len (strip paragraph) + 2
             <=? max_chunk_size self) with false
      by (symmetry; apply Z.leb_gt; lia).
    rewrite Hcur.
    replace (len (strip paragraph) >? max_chunk_size self) with false
      by (symmetry; rewrite Z.gtb_ltb; apply Z.ltb_ge; lia).
    now rewrite Eseed.
Qed.

Lemma fitting_paragraph_is_seeded_with_suffix_witness :
  exists before seed,
    lit "abc de f" = before ++ seed
    /\ len seed = 3
    /\ paragraph_step None small_chunker ([], lit "abc de f") (lit "ghijkl")
       = Ok ([lit "abc de f"], seed ++ lit "ghijkl").
Proof.
  apply (fitting_paragraph_is_seeded_with_suffix None small_chunker []
           (lit "abc de f") (lit "ghijkl")).
  - reflexivity.
  - discriminate.
  - discriminate.
  - reflexivity.
  - vm_compute. discriminate.
Defined.

(** *** Paragraphs that fit are never lost *)

Lemma infix_refl (p : str) : infix p p.
Proof. exists [], []. now rewrite app_nil_r. Qed.

Lemma infix_app_l (p s more : str) : infix p s -> infix p (s ++ more).
Proof.
  intros (a & b & ->). exists a, (b ++ more). now rewrite <- !app_assoc.
Qed.

Lemma infix_app_r (p s before : str) : infix p s -> infix p (before ++ s).
Proof.
  intros (a & b & ->). exists (before ++ a), b. now rewrite <- !app_assoc.
Qed.

Lemma infix_trans (p q s : str) : infix p q -> infix q s -> infix p s.
Proof.
  intros (a & b & ->) (a' & b' & ->).
  exists (a' ++ a), (b ++ b'). now rewrite <- !app_assoc.
Qed.

Lemma infix_rev (p s : str) : infix p s -> infix (rev p) (rev s).
Proof.
  intros (a & b & ->). exists (rev b), (rev a).
  now rewrite !rev_app_distr, <- app_assoc.
Qed.

Lemma infix_not_nil (p s : str) : p <> [] -> infix p s -> s <> [].
Proof.
  intros Hp (a & b & ->) H. apply app_eq_nil in H. destruct H as [_ H].
  apply app_eq_nil in H. tauto.
Qed.

Lemma lstrip_keeps_infix (p s : str) :
  (exists c t, p = c :: t /\ isspace c = false) ->
  infix p s -> infix p (lstrip s).
Proof.
  intros (c & t & -> & Hc) (a & b & ->).
  induction a as [|x a IH]; simpl.
  - rewrite Hc. exists [], b. reflexivity.
  - destruct (isspace x); [exact IH|].
    exists (x :: a), b. reflexivity.
Qed.

Lemma strip_keeps_infix (p s : str) :
  visible_ends p -> infix p s -> infix p (strip s).
Proof.
  intros [Hfront Hback] H. unfold strip, rstrip.
  apply (lstrip_keeps_infix p s Hfront) in H.
  apply infix_rev in H.
  apply (lstrip_keeps_infix (rev p) _ Hback) in H.
  apply infix_rev in H. now rewrite rev_involutive in H.
Qed.

Lemma length_strip (s : str) : (List.length (strip s) <= List.length s)%nat.
Proof.
  unfold strip, rstrip. rewrite length_rev.
  pose proof (ChunkerFacts.length_lstrip (rev (lstrip s))) as H1.
  rewrite length_rev in H1.
  pose proof (ChunkerFacts.length_lstrip s). lia.
Qed.

Lemma strip_visible_ends (q : str) : strip q <> [] -> visible_ends (strip q).
Proof.
  intros Hne. split.
  - destruct (strip q) as [|c t] eqn:E; [congruence|].
    exists c, t. split; [reflexivity|].
    destruct (isspace c) eqn:Ec; [|reflexivity]. exfalso.
    pose proof (CleanFacts.strip_idempotent q) as Hi. rewrite E in Hi.
    assert (L : (List.length (strip (c :: t)) <= List.length t)%nat).
    { unfold strip at 1, rstrip. rewrite length_rev. simpl lstrip.
      rewrite Ec.
      pose proof (ChunkerFacts.length_lstrip (rev (lstrip t))) as H1.
      rewrite length_rev in H1.
      pose proof (ChunkerFacts.length_lstrip t). lia. }
    rewrite Hi in L. simpl in L. lia.
  - unfold strip, rstrip in *. rewrite rev_involutive.
    destruct (lstrip (rev (lstrip q))) as [|c t] eqn:E.
    + simpl in Hne. congruence.
    + exists c, t. split; [reflexivity|].
      exact (CleanFacts.lstrip_head _ _ _ E).
Qed.

Lemma split_paragraphs_infix_bounded (n : nat) :
  forall s, (List.length s <= n)%nat ->
  forall acc p,
    In p (split_paragraphs acc s) -> infix p (rev acc ++ s).
Proof.
  induction n as [|n IH]; intros s Hn acc p Hin.
  - destruct s; [|simpl in Hn; lia].
    simpl in Hin. destruct Hin as [<-|[]].
    rewrite app_nil_r. apply infix_refl.
  - destruct s as [|c s].
    + simpl in Hin. destruct Hin as [<-|[]].
      rewrite app_nil_r. apply infix_refl.
    + cbn [split_paragraphs] in Hin. destruct s as [|c' s'].
      * destruct Hin as [<-|[]]. simpl. apply infix_refl.
      * destruct ((c =? 10) && (c' =? 10)).
        -- destruct Hin as [<-|Hin].
           ++ exists [], (c :: c' :: s'). reflexivity.
           ++ apply (IH s') in Hin; [|simpl in Hn; lia].
              simpl in Hin.
              replace (rev acc ++ c :: c' :: s')
                with ((rev acc ++ [c; c']) ++ s')
                by (now rewrite <- app_assoc).
              now apply infix_app_r.
        -- apply (IH (c' :: s')) in Hin; [|simpl in *; lia].
           simpl in Hin. now rewrite <- app_assoc in Hin.
Qed.

Lemma middle_fold_extends (self : TextChunker) (para_chunks : list str) :
  forall chunks current overlap_text,
    exists more,
      fst (fst (fold_left (middle_step self) para_chunks
                  (chunks, current, overlap_text))) = chunks ++ more.
Proof.
  induction para_chunks as [|pc rest IH]; intros chunks current ov; simpl.
  - exists []. now rewrite app_nil_r.
  - destruct (_ >? _).
    + destruct (IH (chunks ++ [ov ++ pc]) current
                  (_get_overlap_at_word_boundary self
                     (slice_from (- overlap_size self) pc))) as [more ->].
      exists ([ov ++ pc] ++ more). now rewrite app_assoc.
    + apply IH.
Qed.

Lemma kept_in_more (p : str) (chunks more : list str) (current : str) :
  Exists (infix p) chunks -> kept p (chunks ++ more, current).
Proof. intros H. left. simpl. apply Exists_app. now left. Qed.

(** One iteration never loses a text that is already inside a chunk or the
    buffer, and it takes in a paragraph of at most [max_chunk_size - 2]
    characters. *)
Lemma paragraph_step_keeps (sent_tokenize : tokenizer) (self : TextChunker)
    (st st' : list str * str) (q p : str) :
  paragraph_step sent_tokenize self st q = Ok st' ->
  (kept p st -> kept p st')
  /\ (strip q <> [] -> len (strip q) + 2 <= max_chunk_size self ->
      kept (strip q) st').
Proof.
  destruct st as [chunks current]. unfold paragraph_step. intros H.
  destruct (truthy (strip q)) eqn:Eq; simpl negb in H; cbv iota in H.
  2:{ inversion H; subst. split; [auto|].
      intros Hne. apply ChunkerFacts.truthy_true_cons in Hne. congruence. }
  destruct (len current + len (strip q) + 2 <=? max_chunk_size self) eqn:Efit.
  { inversion H; subst. split.
    - intros [Hk|Hk]; [now left|]. right. simpl in *.
      destruct (truthy current); now repeat apply infix_app_l.
    - intros _ _. right. simpl. apply infix_app_r, infix_refl. }
  apply Z.leb_gt in Efit.
  destruct (truthy current) eqn:Ec.
  2:{ inversion H; subst. split; [auto|]. intros _ Hsmall.
      apply ChunkerFacts.truthy_false_nil in Ec. subst current.
      change (len (@nil Z)) with 0 in Efit. lia. }
  assert (Flushed : kept p (chunks, current) ->
                    Exists (infix p) (chunks ++ [current])).
  { intros [Hk|Hk]; apply Exists_app; [now left|].
    right. constructor. exact Hk. }
  destruct (len (strip q) >? max_chunk_size self) eqn:Ebig.
  - rewrite Z.gtb_ltb in Ebig. apply Z.ltb_lt in Ebig.
    destruct (_split_by_sentences sent_tokenize self (strip q))
      as [|first rest]; [discriminate|].
    match type of H with
    | context [fold_left ?f ?l (?c0, ?cur0, ?ov0)] =>
        destruct (middle_fold_extends self l c0 cur0 ov0) as [more Hmore];
        destruct (fold_left f l (c0, cur0, ov0)) as [[c2 cur2] ov2] eqn:Ef;
        assert (Hc2 : c2 = c0 ++ more)
          by (change c2 with (fst (fst (c2, cur2, ov2)));
              rewrite <- Ef; exact Hmore)
    end.
    subst c2. inversion H; subst. split.
    + intros Hk. rewrite <- app_assoc. apply kept_in_more. now apply Flushed.
    + intros _ Hsmall. lia.
  - inversion H; subst. split.
    + intros Hk. left. simpl. now apply Flushed.
    + intros _ _. right. simpl. apply infix_app_r, infix_refl.
Qed.

Lemma paragraph_loop_keeps (sent_tokenize : tokenizer) (self : TextChunker)
    (paragraphs : list str) :
  forall st final p,
    paragraph_loop sent_tokenize self paragraphs st = Ok final ->
    (kept p st -> kept p final)
    /\ (forall q, In q paragraphs -> strip q <> [] ->
          len (strip q) + 2 <= max_chunk_size self -> kept (strip q) final).
Proof.
  induction paragraphs as [|q0 rest IH]; intros st final p H;
    cbn [paragraph_loop] in H.
  - inversion H; subst. split; [auto|]. intros q [].
  - destruct (paragraph_step sent_tokenize self st q0) as [st1|e] eqn:E;
      [|discriminate].
    split.
    + intros Hk. apply (proj1 (IH _ _ p H)).
      now apply (proj1 (paragraph_step_keeps _ _ _ _ q0 p E)).
    + intros q [<-|Hin] Hne Hsmall.
      * apply (proj1 (IH _ _ (strip q0) H)).
        now apply (proj2 (paragraph_step_keeps _ _ _ _ q0 (strip q0) E)).
      * now apply (proj2 (IH _ _ p H) q).
Qed.

Lemma chunk_objects_keep (md : Metadata) (total : Z) (p : str)
    (chunks : list str) :
  p <> [] -> visible_ends p ->
  Exists (infix p) chunks ->
  forall idx,
    Exists (fun c => infix p (Models.text c))
      (chunk_objects md total idx chunks).
Proof.
  intros Hp Hv. induction 1 as [s rest Hs|s rest _ IH]; intros idx;
    cbn [chunk_objects].
  - pose proof (strip_keeps_infix p s Hv Hs) as Hin.
    pose proof (infix_not_nil p _ Hp Hin) as Hne.
    apply ChunkerFacts.truthy_true_cons in Hne. rewrite Hne. simpl.
    constructor. exact Hin.
  - destruct (negb _); [apply IH|]. apply Exists_cons_tl. apply IH.
Qed.

(** X13.  Whenever [chunk_document] returns, every paragraph of the
    normalised text that has visible text and is at most
    [max_chunk_size - 2] characters long (after stripping) occurs, character
    for character, inside one of the returned chunks. *)
Theorem fitting_paragraphs_are_kept
    (sent_tokenize : tokenizer) (self : TextChunker) (text : str)
    (md : Metadata) (out : list Chunk) (p : str) :
  chunk_document sent_tokenize self text md = Ok out ->
  In p (split_paragraphs [] (_clean_text text)) ->
  strip p <> [] ->
  len (strip p) + 2 <= max_chunk_size self ->
  Exists (fun c => infix (strip p) (Models.text c)) out.
Proof.
  intros H Hin Hne Hsmall. unfold chunk_document in H.
  destruct (truthy (_clean_text text)) eqn:Et; simpl negb in H;
    cbv iota in H.
  2:{ apply ChunkerFacts.truthy_false_nil in Et. rewrite Et in Hin.
      simpl in Hin. destruct Hin as [<-|[]]. now elim Hne. }
  destruct (_ <=? _).
  - inversion H; subst. constructor. simpl.
    apply (split_paragraphs_infix_bounded _ _ (Nat.le_refl _)) in Hin.
    simpl in Hin. apply (infix_trans _ p); [|exact Hin].
    unfold strip, rstrip.
    destruct (CleanFacts.lstrip_suffix p) as [pre Hpre].
    destruct (CleanFacts.rstrip_prefix (lstrip p)) as [post Hpost].
    exists pre, post. unfold rstrip in Hpost. now rewrite <- Hpost.
  - unfold _split_into_chunks, raw_chunks in H.
    destruct (paragraph_loop _ _ _ _) as [[chunks current]|e] eqn:L;
      [|discriminate].
    inversion H; subst. clear H.
    pose proof (proj2 (paragraph_loop_keeps _ _ _ _ _ p L) p Hin Hne Hsmall)
      as Hk.
    apply chunk_objects_keep;
      [exact Hne|now apply strip_visible_ends|].
    destruct Hk as [Hk|Hk]; simpl in Hk.
    + destruct (truthy current); [apply Exists_app; now left|exact Hk].
    + pose proof (infix_not_nil _ _ Hne Hk) as Hcur.
      apply ChunkerFacts.truthy_true_cons in Hcur. rewrite Hcur.
      apply Exists_app. right. constructor. exact Hk.
Qed.

Lemma fitting_paragraphs_are_kept_witness :
  let text := lit "xyz" ++ PARA_SEP ++ lit "Aaaa. Bbbb. Cccc." in
  let out :=
    match chunk_document plain_tokenizer small_chunker text usc_195 with
    | Ok chunks => chunks
    | Raise _ => []
    end in
  Exists (fun c => infix (lit "xyz") (Models.text c)) out.
Proof.
  intros text out.
  apply (fitting_paragraphs_are_kept plain_tokenizer small_chunker text
           usc_195 out (lit "xyz")).
  - reflexivity.
  - left. reflexivity.
  - discriminate.
  - vm_compute. discriminate.
Defined.

End ChunkerMore.


(** ** Batching: further properties *)

Module BatchMore.
Import Models Embeddings Props.

Lemma sum_app (a b : list Z) : sum (a ++ b) = sum a + sum b.
Proof.
  unfold sum. rewrite fold_left_app, BatchFacts.sum_from. reflexivity.
Qed.

(** Every batch is built by [_create_embedded_chunk_batch] from its own
    chunks, and the batches hold the stored chunks in input order; this
    needs no assumption on the limits. *)
Lemma create_batches_structure (encoding : token_encoding)
    (self : EmbeddingsService) (chunks : list Chunk) :
  Forall (fun b => b = _create_embedded_chunk_batch encoding (batch_chunks b))
    (_create_batches encoding self chunks)
  /\ concat (map batch_chunks (_create_batches encoding self chunks))
     = map (prepare encoding) chunks.
Proof.
  unfold _create_batches.
  assert (Inv : forall cs done st,
    (let '(batches, current, _) := st in
     Forall (fun b => b = _create_embedded_chunk_batch encoding
                            (batch_chunks b)) batches
     /\ concat (map batch_chunks batches) ++ current
        = map (prepare encoding) done) ->
    let '(batches, current, _) :=
      fold_left (batch_step encoding self) cs st in
    Forall (fun b => b = _create_embedded_chunk_batch encoding
                           (batch_chunks b)) batches
    /\ concat (map batch_chunks batches) ++ current
       = map (prepare encoding) (done ++ cs)).
  { induction cs as [|c cs IH]; intros done st Hst.
    - simpl. now rewrite app_nil_r.
    - cbn [fold_left].
      replace (done ++ c :: cs) with ((done ++ [c]) ++ cs)
        by (now rewrite <- app_assoc).
      apply IH. destruct st as [[batches current] tok].
      destruct Hst as [Hb Hcat].
      rewrite BatchFacts.batch_step_eq. cbv zeta.
      destruct (_ && _).
      + split.
        * apply Forall_app. split; [exact Hb|].
          constructor; [|constructor].
          now rewrite BatchFacts.batch_chunks_created.
        * rewrite map_app, concat_app. simpl.
          rewrite BatchFacts.batch_chunks_created, app_nil_r, map_app,
                  <- Hcat.
          reflexivity.
      + split; [exact Hb|].
        rewrite map_app, <- Hcat. now rewrite <- app_assoc. }
  specialize (Inv chunks [] ([], [], 0)).
  destruct (fold_left (batch_step encoding self) chunks ([], [], 0))
    as [[batches current] tok].
  destruct Inv as [Hb Hcat]; [split; [constructor|reflexivity]|].
  simpl app in Hcat.
  destruct (truthy current) eqn:Et.
  - split.
    + apply Forall_app. split; [exact Hb|]. constructor; [|constructor].
      now rewrite BatchFacts.batch_chunks_created.
    + rewrite map_app, concat_app. simpl.
      now rewrite BatchFacts.batch_chunks_created, app_nil_r.
  - apply ChunkerFacts.truthy_false_nil in Et. subst current.
    rewrite app_nil_r in Hcat. now split.
Qed.

(** The limits of every batch, for a batch limit of at least one chunk. *)
Lemma create_batches_limits (encoding : token_encoding)
    (self : EmbeddingsService) (chunks : list Chunk) :
  1 <= batch_size self ->
  Forall (within_limits encoding self) (_create_batches encoding self chunks).
Proof.
  intros Hbs. unfold _create_batches.
  pose proof (BatchFacts.fold_batch_step_invariant encoding self chunks Hbs
                [] ([], [], 0)) as Inv.
  destruct (fold_left (batch_step encoding self) chunks ([], [], 0))
    as [[batches current] current_tokens].
  destruct Inv as (Hb & Hcat & Htok & Hcur).
  { unfold batching_invariant. repeat split; auto. }
  destruct (truthy current) eqn:Et; [|exact Hb].
  assert (Hne : current <> [])
    by (apply ChunkerFacts.truthy_true_cons; exact Et).
  destruct Hcur as [->|[Hlen Hbudget]]; [congruence|].
  apply Forall_app. split; [exact Hb|]. constructor; [|constructor].
  apply BatchFacts.created_within_limits; [exact Hne|exact Hlen|].
  rewrite <- Htok. exact Hbudget.
Qed.

Lemma len_slice_to {A} (j : Z) (s : list A) :
  0 <= j -> len (slice_to j s) <= j.
Proof.
  intros Hj. unfold slice_to, clamp, len.
  replace (j <? 0) with false by (symmetry; apply Z.ltb_ge; lia).
  rewrite length_firstn. lia.
Qed.

Lemma slice_to_prefix {A} (j : Z) (s : list A) :
  exists dropped, s = slice_to j s ++ dropped.
Proof.
  unfold slice_to. eexists. symmetry. apply firstn_skipn.
Qed.

(** With the character heuristic a stored chunk never counts more than 3000
    tokens. *)
Lemma heuristic_tokens_capped (c : Chunk) :
  chunk_tokens None (prepare None c) <= 3000.
Proof.
  unfold prepare. destruct (chunk_tokens None c >? 3000) eqn:E.
  - unfold chunk_tokens, count_tokens, set_text. simpl.
    pose proof (len_slice_to 9000 (text c) ltac:(lia)) as L.
    pose proof (ChunkerFacts.len_nonneg (slice_to 9000 (text c))) as N.
    assert (len (slice_to 9000 (text c)) / 3 <= 3000)
      by (apply Z.div_le_upper_bound; lia).
    lia.
  - rewrite Z.gtb_ltb in E. apply Z.ltb_ge in E. exact E.
Qed.

(** X15.  When tiktoken is unavailable and the token budget of a batch is at
    least 3000 (the default is 3500), no batch exceeds the token budget or
    the batch size: a chunk that alone breaks the budget cannot occur,
    because every stored chunk counts at most 3000 tokens. *)
Theorem heuristic_counter_respects_budget
    (self : EmbeddingsService) (chunks : list Chunk) :
  1 <= batch_size self ->
  3000 <= max_tokens_per_batch self ->
  Forall (fun b =>
            total_tokens b <= max_tokens_per_batch self
            /\ len (batch_chunks b) <= batch_size self
            /\ Forall (fun c => chunk_tokens None c <= 3000) (batch_chunks b))
    (_create_batches None self chunks).
Proof.
  intros Hbs Hmax.
  pose proof (create_batches_limits None self chunks Hbs) as Hlim.
  destruct (create_batches_structure None self chunks) as [_ Hcat].
  assert (Hall : Forall (fun c => chunk_tokens None c <= 3000)
                   (concat (map batch_chunks
                              (_create_batches None self chunks)))).
  { rewrite Hcat. apply Forall_map. apply Forall_forall.
    intros c _. apply heuristic_tokens_capped. }
  rewrite Forall_concat in Hall. rewrite Forall_map in Hall.
  rewrite Forall_forall in *. intros b Hb.
  specialize (Hlim b Hb). specialize (Hall b Hb).
  destruct Hlim as (_ & _ & _ & Hlen & Hbudget).
  split; [|split; [exact Hlen|exact Hall]].
  destruct Hbudget as [H|[c [Hc Hover]]]; [exact H|].
  rewrite Hc in Hall. inversion Hall; subst. lia.
Qed.

Lemma heuristic_counter_respects_budget_witness :
  Forall (fun b =>
            total_tokens b <= 3500
            /\ len (batch_chunks b) <= 40
            /\ Forall (fun c => chunk_tokens None c <= 3000) (batch_chunks b))
    (_create_batches None default_service
       [long_chunk; fifty_token_chunk]).
Proof.
  apply (heuristic_counter_respects_budget default_service
           [long_chunk; fifty_token_chunk]).
  - vm_compute. discriminate.
  - vm_compute. discriminate.
Defined.

(** X16.  Batching never reorders, drops or relabels chunks: read in order,
    the batches hold one stored chunk per input chunk, with the same string
    id and metadata, and a text that is a prefix of the input text, at most
    9000 characters long when the input counted more than 3000 tokens. *)
Theorem batching_keeps_chunk_identity
    (encoding : token_encoding) (self : EmbeddingsService)
    (chunks : list Chunk) :
  Forall2
    (fun stored c =>
       string_id stored = string_id c
       /\ metadata stored = metadata c
       /\ (exists dropped, text c = text stored ++ dropped)
       /\ (3000 < chunk_tokens encoding c -> len (text stored) <= 9000)
       /\ (chunk_tokens encoding c <= 3000 -> stored = c))
    (concat (map batch_chunks (_create_batches encoding self chunks)))
    chunks.
Proof.
  destruct (create_batches_structure encoding self chunks) as [_ Hcat].
  rewrite Hcat. clear Hcat.
  induction chunks as [|c chunks IH]; simpl; constructor; [|exact IH].
  unfold prepare. destruct (chunk_tokens encoding c >? 3000) eqn:E.
  - rewrite Z.gtb_ltb in E. apply Z.ltb_lt in E.
    unfold set_text. simpl. repeat split.
    + apply slice_to_prefix.
    + intros _. apply len_slice_to. lia.
    + intros H. lia.
  - rewrite Z.gtb_ltb in E. apply Z.ltb_ge in E. repeat split.
    + exists []. now rewrite app_nil_r.
    + intros H. lia.
Qed.

Lemma closed_when_full_snoc (encoding : token_encoding)
    (self : EmbeddingsService) (groups : list (list Chunk))
    (g : list Chunk) (c : Chunk) :
  closed_when_full encoding self (groups ++ [g]) ->
  batch_full encoding self g c ->
  closed_when_full encoding self ((groups ++ [g]) ++ [[c]]).
Proof.
  intros H Hfull. induction groups as [|g1 groups IH].
  - simpl. auto.
  - cbn [app closed_when_full] in *. destruct H as [H1 H2].
    split; [|now apply IH].
    destruct groups as [|g2 groups]; simpl in *; exact H1.
Qed.

Lemma closed_when_full_grow (encoding : token_encoding)
    (self : EmbeddingsService) (groups : list (list Chunk))
    (g more : list Chunk) :
  g <> [] ->
  closed_when_full encoding self (groups ++ [g]) ->
  closed_when_full encoding self (groups ++ [g ++ more]).
Proof.
  intros Hg H. induction groups as [|g1 groups IH].
  - simpl. auto.
  - cbn [app closed_when_full] in *. destruct H as [H1 H2].
    split; [|now apply IH].
    destruct groups as [|g2 groups]; simpl in *.
    + destruct g as [|x g]; [congruence|exact H1].
    + exact H1.
Qed.

(** X17.  Batches are filled greedily: a batch is closed only when it
    already holds [batch_size] chunks or when the first chunk of the next
    batch would have pushed it over [max_tokens_per_batch]. *)
Theorem batches_closed_only_when_full
    (encoding : token_encoding) (self : EmbeddingsService)
    (chunks : list Chunk) :
  closed_when_full encoding self
    (map batch_chunks (_create_batches encoding self chunks)).
Proof.
  unfold _create_batches.
  assert (Inv : forall cs st,
    (let '(batches, current, current_tokens) := st in
     current_tokens = sum (map (chunk_tokens encoding) current)
     /\ (current = [] -> batches = [])
     /\ closed_when_full encoding self
          (map batch_chunks batches ++ [current])) ->
    let '(batches, current, current_tokens) :=
      fold_left (batch_step encoding self) cs st in
    current_tokens = sum (map (chunk_tokens encoding) current)
    /\ (current = [] -> batches = [])
    /\ closed_when_full encoding self
         (map batch_chunks batches ++ [current])).
  { induction cs as [|c cs IH]; intros st Hst; [exact Hst|].
    cbn [fold_left]. apply IH.
    destruct st as [[batches current] tok].
    destruct Hst as (Htok & Hempty & Hclosed).
    rewrite BatchFacts.batch_step_eq. cbv zeta.
    set (c' := prepare encoding c).
    destruct ((len current >=? batch_size self)
              || (tok + chunk_tokens encoding c'
                  >? max_tokens_per_batch self)) eqn:Efull; simpl andb.
    - destruct (truthy current) eqn:Et.
      + split; [unfold sum; simpl; reflexivity|].
        split; [discriminate|].
        rewrite map_app. simpl map.
        rewrite BatchFacts.batch_chunks_created.
        apply closed_when_full_snoc; [exact Hclosed|].
        apply orb_true_iff in Efull. destruct Efull as [E|E].
        * left. rewrite Z.geb_leb in E. now apply Z.leb_le in E.
        * right. rewrite Z.gtb_ltb in E. apply Z.ltb_lt in E.
          now rewrite <- Htok.
      + apply ChunkerFacts.truthy_false_nil in Et. subst current.
        rewrite (Hempty eq_refl). simpl.
        split; [rewrite Htok; unfold sum; simpl; reflexivity|].
        split; [discriminate|auto].
    - split.
      + rewrite map_app.
        change (map (chunk_tokens encoding) [c'])
          with [chunk_tokens encoding c'].
        now rewrite BatchFacts.sum_snoc, <- Htok.
      + split; [intros H; now destruct current|].
        destruct current as [|x current].
        * rewrite (Hempty eq_refl). simpl. auto.
        * apply closed_when_full_grow; [discriminate|exact Hclosed]. }
  specialize (Inv chunks ([], [], 0)).
  destruct (fold_left (batch_step encoding self) chunks ([], [], 0))
    as [[batches current] tok].
  destruct Inv as (_ & Hempty & Hclosed).
  { split; [reflexivity|]. split; [reflexivity|simpl; auto]. }
  destruct (truthy current) eqn:Et.
  - rewrite map_app. simpl map.
    now rewrite BatchFacts.batch_chunks_created.
  - apply ChunkerFacts.truthy_false_nil in Et. subst current.
    rewrite (Hempty eq_refl). simpl. exact I.
Qed.

Lemma sum_concat_tokens (encoding : token_encoding)
    (groups : list (list Chunk)) :
  sum (map (fun g => sum (map (chunk_tokens encoding) g)) groups)
  = sum (map (chunk_tokens encoding) (concat groups)).
Proof.
  induction groups as [|g groups IH]; [reflexivity|].
  change (map (fun g0 => sum (map (chunk_tokens encoding) g0)) (g :: groups))
    with ([sum (map (chunk_tokens encoding) g)]
          ++ map (fun g0 => sum (map (chunk_tokens encoding) g0)) groups).
  rewrite sum_app, IH. simpl concat. rewrite map_app, sum_app.
  unfold sum at 1. simpl. reflexivity.
Qed.

(** X18.  The token totals of the batches add up to the estimate that
    [estimate_cost] gives for the stored chunks; when no chunk counts more
    than 3000 tokens this is the estimate for the input itself. *)
Theorem batch_totals_match_estimate
    (encoding : token_encoding) (self : EmbeddingsService)
    (chunks : list Chunk) :
  sum (map total_tokens (_create_batches encoding self chunks))
    = estimate_cost_tokens encoding (map (prepare encoding) chunks)
  /\ (Forall (fun c => chunk_tokens encoding c <= 3000) chunks ->
      sum (map total_tokens (_create_batches encoding self chunks))
      = estimate_cost_tokens encoding chunks).
Proof.
  destruct (create_batches_structure encoding self chunks) as [Hb Hcat].
  assert (E : sum (map total_tokens (_create_batches encoding self chunks))
              = estimate_cost_tokens encoding (map (prepare encoding) chunks)).
  { rewrite <- Hcat. unfold estimate_cost_tokens.
    fold (chunk_tokens encoding).
    change (fun chunk => count_tokens encoding (text chunk))
      with (chunk_tokens encoding).
    rewrite <- sum_concat_tokens, map_map. f_equal.
    apply map_ext_in. intros b Hin.
    rewrite Forall_forall in Hb. rewrite (Hb b Hin) at 1.
    reflexivity. }
  split; [exact E|]. intros Hsmall. rewrite E. f_equal.
  clear Hb Hcat E.
  induction Hsmall as [|c cs Hc _ IH]; [reflexivity|].
  simpl. rewrite IH. f_equal. unfold prepare.
  replace (chunk_tokens encoding c >? 3000) with false; [reflexivity|].
  symmetry. rewrite Z.gtb_ltb. apply Z.ltb_ge. exact Hc.
Qed.

Lemma batch_totals_match_estimate_witness :
  sum (map total_tokens
         (_create_batches None default_service (repeat fifty_token_chunk 45)))
  = estimate_cost_tokens None (repeat fifty_token_chunk 45).
Proof.
  apply (proj2 (batch_totals_match_estimate None default_service
                  (repeat fifty_token_chunk 45))).
  apply Forall_forall. intros c Hc.
  apply repeat_spec in Hc. subst c. vm_compute. discriminate.
Defined.

End BatchMore.


(** ** The embedding run: further properties *)

Module EmbedMore.
Import Models Embeddings Props.

Lemma map_embeddings_ok (encoding : token_encoding)
    (self : EmbeddingsService) (data : list (list float))
    (objs : list EmbeddedChunk) :
  forall idx out,
    map_embeddings self data idx objs = Ok out ->
    Forall (counted encoding) objs ->
    map chunk out = map chunk objs
    /\ Forall (embedded_properly encoding self) out.
Proof.
  induction objs as [|o objs IH]; intros idx out H Hc;
    cbn [map_embeddings] in H.
  - inversion H. split; constructor.
  - destruct (nth_error data idx) as [v|]; [|discriminate].
    destruct (len v =? embedding_dimension self) eqn:Ev; simpl in H;
      [|discriminate].
    destruct (map_embeddings self data (S idx) objs) as [rest|e] eqn:E;
      [|discriminate].
    inversion H; subst. inversion Hc; subst.
    destruct (IH _ _ E) as [IH1 IH2]; [assumption|].
    split; [simpl; now rewrite IH1|].
    constructor; [|exact IH2].
    unfold embedded_properly. simpl. repeat split.
    + now apply Z.eqb_eq.
    + assumption.
Qed.

Lemma embed_with_retry_ok (client : provider) (self : EmbeddingsService)
    (batch : IngestionBatch) (w w' : world) (out : list EmbeddedChunk) :
  embed_with_retry client self batch w = (Ok out, w') ->
  exists vectors,
    map_embeddings self vectors 0 (embedded_chunks batch) = Ok out.
Proof.
  rewrite EmbedFacts.embed_with_retry_run. cbv zeta.
  assert (Plain : forall w0,
    _embed_batch client self batch w0 = (Ok out, w') ->
    exists vectors,
      map_embeddings self vectors 0 (embedded_chunks batch) = Ok out).
  { intros w0. rewrite EmbedFacts._embed_batch_run. cbv zeta.
    destruct (client _ _ _) as [vectors|e]; intros H; inversion H.
    now exists vectors. }
  destruct (client _ _ _) as [vectors|e]; [apply Plain|].
  destruct e; apply Plain.
Qed.

Lemma batch_loop_ok (encoding : token_encoding) (client : provider)
    (self : EmbeddingsService) (batch_delay_ms n_batches : Z)
    (batches : list IngestionBatch) :
  Forall (fun b => Forall (counted encoding) (embedded_chunks b)) batches ->
  forall batch_idx acc w out w',
    batch_loop client self batch_delay_ms n_batches batch_idx batches acc w
      = (Ok out, w') ->
    exists new,
      out = acc ++ new
      /\ map chunk new = concat (map batch_chunks batches)
      /\ Forall (embedded_properly encoding self) new.
Proof.
  induction 1 as [|batch rest Hb _ IH]; intros idx acc w out w' H;
    cbn [batch_loop] in H.
  - inversion H; subst. exists []. rewrite app_nil_r.
    repeat split; constructor.
  - unfold bind at 1 in H.
    destruct (embed_with_retry client self batch w) as [[emb|e] w1] eqn:E1;
      [|discriminate].
    destruct (embed_with_retry_ok _ _ _ _ _ _ E1) as [vectors Hv].
    destruct (map_embeddings_ok encoding _ _ _ _ _ Hv Hb) as [M1 M2].
    unfold bind at 1 in H.
    destruct ((if idx <? n_batches - 1 then sleep batch_delay_ms
               else ret tt) w1) as [[u|e] w2] eqn:E2;
      [|destruct (idx <? n_batches - 1); discriminate].
    destruct (IH _ _ _ _ _ H) as (new & Hout & Hmap & Hprop).
    exists (emb ++ new). split; [now rewrite app_assoc|]. split.
    + rewrite map_app, Hmap, M1. reflexivity.
    + apply Forall_app. now split.
Qed.

Lemma created_batches_counted (encoding : token_encoding)
    (self : EmbeddingsService) (chunks : list Chunk) :
  Forall (fun b => Forall (counted encoding) (embedded_chunks b))
    (_create_batches encoding self chunks).
Proof.
  destruct (BatchMore.create_batches_structure encoding self chunks)
    as [Hb _].
  eapply Forall_impl; [|exact Hb]. intros b ->.
  unfold _create_embedded_chunk_batch. simpl.
  apply Forall_map. apply Forall_forall. intros c _. reflexivity.
Qed.

(** X19.  When a run of [generate_embeddings] returns, it returns one
    embedded chunk per input chunk, in input order, each holding the stored
    chunk, a vector of 1536 numbers, the numeric id of the chunk's string id
    and the token count of the stored text. *)
Theorem embedded_chunks_match_input
    (encoding : token_encoding) (client : provider)
    (self : EmbeddingsService) (chunks : list Chunk) (batch_delay_ms : Z)
    (w w' : world) (out : list EmbeddedChunk) :
  generate_embeddings encoding client self chunks batch_delay_ms w
    = (Ok out, w') ->
  map chunk out = map (prepare encoding) chunks
  /\ Forall (embedded_properly encoding self) out.
Proof.
  unfold generate_embeddings. intros H.
  destruct chunks as [|c chunks]; simpl negb in H; cbv iota in H.
  - inversion H. split; constructor.
  - destruct (batch_loop_ok encoding _ _ _ _ _
                (created_batches_counted encoding self (c :: chunks))
                _ _ _ _ _ H) as (new & -> & Hmap & Hprop).
    simpl app. split; [|exact Hprop].
    rewrite Hmap.
    apply (proj2 (BatchMore.create_batches_structure encoding self
                    (c :: chunks))).
Qed.

Lemma embedded_chunks_match_input_witness :
  let chunks := [long_chunk; fifty_token_chunk] in
  let out :=
    match fst (generate_embeddings None steady one_per_batch chunks 100
                 (start 0)) with
    | Ok l => l
    | Raise _ => []
    end in
  map chunk out = map (prepare None) chunks
  /\ Forall (embedded_properly None one_per_batch) out.
Proof.
  intros chunks out.
  apply (embedded_chunks_match_input None steady one_per_batch chunks 100
           (start 0)
           (snd (generate_embeddings None steady one_per_batch chunks 100
                   (start 0)))).
  vm_compute. reflexivity.
Defined.

(** *** A run without failures *)

Lemma map_embeddings_total (self : EmbeddingsService)
    (data : list (list float)) (objs : list EmbeddedChunk) :
  Forall (fun v => len v = embedding_dimension self) data ->
  forall idx,
    (idx + List.length objs <= List.length data)%nat ->
    exists out, map_embeddings self data idx objs = Ok out.
Proof.
  intros Hgood. induction objs as [|o objs IH]; intros idx Hlen;
    cbn [map_embeddings].
  - now exists [].
  - simpl in Hlen.
    destruct (nth_error data idx) as [v|] eqn:E.
    + rewrite Forall_forall in Hgood.
      rewrite (proj2 (Z.eqb_eq _ _) (Hgood v (nth_error_In _ _ E))).
      simpl. destruct (IH (S idx)) as [rest Hrest]; [lia|].
      rewrite Hrest. eauto.
    + apply nth_error_None in E. lia.
Qed.

Lemma sleep_run (ms : Z) (w : world) :
  sleep ms w = (Ok tt, extend w 0 [Sleep ms]).
Proof. reflexivity. Qed.

Lemma embed_with_retry_calm (client : provider) (self : EmbeddingsService)
    (batch : IngestionBatch) (w : world) :
  obliging self client ->
  exists out,
    embed_with_retry client self batch w
    = (Ok out,
       extend w 1
         [Request (model self) (request_texts batch)
            (client (requests w) (model self) (request_texts batch))]).
Proof.
  intros Hob. rewrite EmbedFacts.embed_with_retry_run. cbv zeta.
  destruct (Hob (requests w) (model self) (request_texts batch))
    as (vectors & Hv & Hlen & Hgood).
  rewrite Hv. rewrite <- Hv. rewrite EmbedFacts._embed_batch_run. cbv zeta.
  rewrite Hv.
  destruct (map_embeddings_total self vectors (embedded_chunks batch) Hgood 0)
    as [out Hout].
  - unfold request_texts in Hlen. rewrite length_map in Hlen. simpl. lia.
  - rewrite Hout. now exists out.
Qed.

Lemma batch_loop_calm (client : provider) (self : EmbeddingsService)
    (batch_delay_ms n_batches : Z) (batches : list IngestionBatch) :
  obliging self client ->
  forall batch_idx acc w,
    n_batches = batch_idx + len batches ->
    exists out,
      batch_loop client self batch_delay_ms n_batches batch_idx batches acc w
      = (Ok out,
         extend w (List.length batches)
           (calm_trace client self batch_delay_ms (requests w) batches)).
Proof.
  intros Hob. induction batches as [|batch rest IH]; intros idx acc w Hn;
    cbn [batch_loop].
  - exists acc. unfold ret, extend. simpl. rewrite app_nil_r.
    now destruct w.
  - unfold bind at 1.
    destruct (embed_with_retry_calm client self batch w Hob) as [emb ->].
    unfold bind at 1.
    assert (Hlen : len (batch :: rest) = len rest + 1)
      by (unfold len; simpl List.length; lia).
    destruct rest as [|b2 rest'].
    + replace (idx <? n_batches - 1) with false
        by (symmetry; apply Z.ltb_ge; unfold len in *; simpl in *; lia).
      unfold ret at 1. cbn [batch_loop]. unfold ret. eauto.
    + replace (idx <? n_batches - 1) with true
        by (symmetry; apply Z.ltb_lt;
            pose proof (ChunkerFacts.len_nonneg rest');
            unfold len in *; simpl List.length in *; lia).
      rewrite sleep_run, EmbedFacts.extend_extend.
      destruct (IH (idx + 1) (acc ++ emb)
                  (extend w (0 + 1)
                     ([Request (model self) (request_texts batch)
                         (client (requests w) (model self)
                            (request_texts batch))]
                      ++ [Sleep batch_delay_ms]))) as [out Hout]; [lia|].
      exists out. rewrite Hout, EmbedFacts.extend_extend.
      f_equal. f_equal.
      * simpl. lia.
Qed.

(** X20.  With a provider that answers every request with one vector of the
    right dimension per text, a run succeeds; it makes exactly one request
    per batch, in batch order, and sleeps [batch_delay_ms] between two
    batches and never after the last one. *)
Theorem run_without_failures
    (encoding : token_encoding) (client : provider)
    (self : EmbeddingsService) (chunks : list Chunk) (batch_delay_ms : Z)
    (n : nat) :
  obliging self client ->
  let batches := _create_batches encoding self chunks in
  exists out,
    generate_embeddings encoding client self chunks batch_delay_ms (start n)
    = (Ok out,
       extend (start n) (List.length batches)
         (calm_trace client self batch_delay_ms n batches))
    /\ map chunk out = map (prepare encoding) chunks.
Proof.
  intros Hob batches.
  assert (Run : exists out,
    generate_embeddings encoding client self chunks batch_delay_ms (start n)
    = (Ok out,
       extend (start n) (List.length batches)
         (calm_trace client self batch_delay_ms n batches))).
  { unfold generate_embeddings. destruct chunks as [|c chunks].
    - exists []. reflexivity.
    - simpl negb. cbv iota.
      apply (batch_loop_calm client self batch_delay_ms _ _ Hob 0 []
               (start n)).
      lia. }
  destruct Run as [out Hrun]. exists out. split; [exact Hrun|].
  unfold generate_embeddings in Hrun.
  destruct chunks as [|c chunks]; simpl negb in Hrun; cbv iota in Hrun.
  - inversion Hrun. reflexivity.
  - destruct (batch_loop_ok encoding _ _ _ _ _
                (created_batches_counted encoding self (c :: chunks))
                _ _ _ _ _ Hrun) as (new & -> & Hmap & _).
    simpl app. rewrite Hmap.
    apply (proj2 (BatchMore.create_batches_structure encoding self
                    (c :: chunks))).
Qed.

Lemma steady_obliging (self : EmbeddingsService) : obliging self steady.
Proof.
  intros n m texts. exists (map (fun _ => good_vector) texts).
  split; [reflexivity|]. split; [apply length_map|].
  apply Forall_map. apply Forall_forall. intros t _. reflexivity.
Qed.

Lemma run_without_failures_witness :
  let chunks := [fifty_token_chunk; fifty_token_chunk] in
  exists out,
    generate_embeddings None steady one_per_batch chunks 100 (start 0)
    = (Ok out,
       extend (start 0) 2
         [Request (model one_per_batch) [repeat 97 150]
            (Data [good_vector]);
          Sleep 100;
          Request (model one_per_batch) [repeat 97 150]
            (Data [good_vector])])
    /\ map chunk out = map (prepare None) chunks.
Proof.
  intros chunks.
  apply (run_without_failures None steady one_per_batch chunks 100 0).
  apply steady_obliging.
Defined.

(** *** What a run may do *)






End EmbedMore.
